(** * CheckCreator: the creator-licence lease service

    A shallow embedding of [Programming/Python/CheckCreator/main.py]:
    the token exchange [getToken], the purge-and-count operation
    [getRecords] and the two request handlers [create_item] ([POST /add])
    and [check] ([POST /check]).

    The handlers talk to two remote systems, the portal's token endpoint and
    the feature-service table.  Both are outside the repository; they are
    modelled here as an explicit world (the rows of the table and the log of
    the requests sent so far) that every [requests.post] call goes through.

    Python [float] values are IEEE-754 binary64 numbers; they are embedded
    with the executable specification [SpecFloat] at precision 53.  The
    calls to the logger write to a file and to the console only; what is
    kept of them is the evaluation of their argument where it can raise:
    [str(response.json())] in the two error branches. *)

From Stdlib Require Import ZArith QArith Qpower List String Bool Lia.
From Stdlib Require Import DecimalString.
From Stdlib Require Import Floats.SpecFloat.
Import ListNotations.

Local Open Scope Z_scope.
Local Open Scope string_scope.

(** ** Python values *)

Module Py.

(** [float]: binary64. *)
Definition float := spec_float.
Definition prec : Z := 53.
Definition emax : Z := 1024.

Definition fadd : float -> float -> float := SFadd prec emax.
Definition fmul : float -> float -> float := SFmul prec emax.
Definition fdiv : float -> float -> float := SFdiv prec emax.

(** The nearest binary64 of an integer, ties to even; an infinity when the
    integer is out of range. *)
Definition nearest (n : Z) : float := binary_normalize prec emax n 0 false.

(** The number a float stands for; infinities and NaN stand for none. *)
Definition Q_of_float (x : float) : option Q :=
  match x with
  | S754_zero _ => Some (inject_Z 0)
  | S754_finite s m e =>
      Some (inject_Z (cond_Zopp s (Zpos m)) * inject_Z 2 ^ e)%Q
  | _ => None
  end.

Inductive exn :=
| KeyError (key : string)
| ConnectionError
| OverflowError
| ValueError
| OSError
| JSONDecodeError.

(** What running a piece of Python ends in: a value, a raised exception,
    or [sys.exit()]. *)
Inductive outcome (A : Type) :=
| Ok (a : A)
| Raise (e : exn)
| SysExit.
Arguments Ok {A} a.
Arguments Raise {A} e.
Arguments SysExit {A}.

(** The implicit [int -> float] conversion of a mixed [float + int]:
    it raises [OverflowError] when the integer is too large. *)
Definition float_of_int (n : Z) : outcome float :=
  match nearest n with
  | S754_infinity _ => Raise OverflowError
  | f => Ok f
  end.

(** [str(n)] and [f"{n}"] for an [int]. *)
Definition str (n : Z) : string := NilZero.string_of_int (Z.to_int n).

(** The values the handlers put into their response dictionaries. *)
Inductive value :=
| Str (s : string)
| None_.

(** A dictionary literal, in the order its keys are written. *)
Definition dict := list (string * value).

Fixpoint get (d : dict) (key : string) : option value :=
  match d with
  | [] => None
  | (k, v) :: d' => if String.eqb k key then Some v else get d' key
  end.

Definition of_optional (s : option string) : value :=
  match s with
  | Some s => Str s
  | None => None_
  end.

End Py.
Import Py.

(** ** The lease table and the requests sent to the remote systems *)

(** One row of the table; the attribute names are those of the payload. *)
Record Lease := {
  id : string;
  user_ : option string;
  start : float;
  end_ : float
}.

Inductive Request :=
| TokenRequest (url username password referer : string) (expiration : Z)
| DeleteFeatures (url token where_ : string)
| Query (url token where_ outFields returnGeometry : string)
| AddFeatures (url token : string) (features : list Lease)
    (gdbVersion : string) (rollbackOnFailure timeReferenceUnknownClient : bool).

(** The body of a reply: one of the JSON documents of the REST interface,
    or something that is not JSON (an HTML error page, an empty body), on
    which [response.json()] raises. *)
Inductive Body :=
| TokenJson (token : string)
| FeaturesJson (features : list Lease)
| EditJson
| ErrorJson
| NotJson.

Record Response := {
  status_code : Z;
  body : Body
}.

(** How a remote call can go wrong: an error reply (status [400 + n], never
    200), which an insert may give after it has written the first [written]
    records of its batch, and whose body is a JSON error document
    ([HttpError]) or not JSON at all ([HttpErrorPage]); a call that is
    served but whose reply carries a body that is not JSON ([Garbled]); or
    no reply at all. *)
Inductive Fault :=
| Healthy
| HttpError (n written : nat)
| HttpErrorPage (n written : nat)
| Garbled
| Unreachable.

(** What surrounds one request: the clock of the serving host, the clock of
    the table's server, the token the portal hands out, the faults of the
    remote calls (by the position of the call in the log), and the host's
    [datetime.fromtimestamp(x).strftime('%Y-%m-%d %H:%M:%S')], which is
    [None] where [fromtimestamp] raises, and the exception it raises there
    ([OverflowError], [OSError] or [ValueError], by the platform). *)
Record Env := {
  clock : float;
  CURRENT_TIMESTAMP : float;
  issued_token : string;
  fault_at : nat -> Fault;
  local_strftime : float -> option string;
  strftime_raises : float -> exn
}.

Record World := {
  table : list Lease;
  sent : list Request
}.

(** *** The remote table

    The table's server is not part of the repository.  What follows is the
    behaviour the service relies on: a served call answers with status 200
    and has done what it was asked, a refused call answers with another
    status. *)

(** [end_ < CURRENT_TIMESTAMP], the numeric comparison on the stored value. *)
Definition expired (now : float) (r : Lease) : bool := SFltb (end_ r) now.

(** The two [where] clauses the service sends, as the table's server reads
    them. *)
Definition sql_where (clause : string) (now : float) : option (Lease -> bool) :=
  if String.eqb clause "end_ < CURRENT_TIMESTAMP" then
    Some (expired now)
  else if String.eqb clause "1=1" then
    Some (fun _ => true)
  else None.

Definition delete_where (sel : Lease -> bool) (rows : list Lease) : list Lease :=
  filter (fun r => negb (sel r)) rows.

(** What [deleteFeatures] with the first clause leaves in the table. *)
Definition purge (now : float) (rows : list Lease) : list Lease :=
  delete_where (expired now) rows.

(** A healthy remote: the token endpoint issues a token, [deleteFeatures]
    removes the selected rows, [query] returns the selected rows, and
    [addFeatures] appends the batch. *)
Definition serve (env : Env) (req : Request) (rows : list Lease)
  : Response * list Lease :=
  match req with
  | TokenRequest _ _ _ _ _ =>
      ({| status_code := 200; body := TokenJson (issued_token env) |}, rows)
  | DeleteFeatures _ _ clause =>
      match sql_where clause (CURRENT_TIMESTAMP env) with
      | Some sel => ({| status_code := 200; body := EditJson |}, delete_where sel rows)
      | None => ({| status_code := 400; body := ErrorJson |}, rows)
      end
  | Query _ _ clause _ _ =>
      match sql_where clause (CURRENT_TIMESTAMP env) with
      | Some sel => ({| status_code := 200; body := FeaturesJson (filter sel rows) |}, rows)
      | None => ({| status_code := 400; body := ErrorJson |}, rows)
      end
  | AddFeatures _ _ features _ _ _ =>
      ({| status_code := 200; body := EditJson |}, (rows ++ features)%list)
  end.

(** What a refused call leaves in the table: an insert that fails part-way
    is undone when [rollbackOnFailure] is set, and otherwise keeps the
    records written so far; the other calls change nothing. *)
Definition refused (written : nat) (req : Request) (rows : list Lease)
  : list Lease :=
  match req with
  | AddFeatures _ _ features _ rollbackOnFailure _ =>
      if rollbackOnFailure then rows
      else (rows ++ firstn written features)%list
  | _ => rows
  end.

Definition remote (env : Env) (req : Request) (w : World)
  : option Response * list Lease :=
  match fault_at env (List.length (sent w)) with
  | Healthy => let (resp, rows) := serve env req (table w) in (Some resp, rows)
  | HttpError n written =>
      (Some {| status_code := 400 + Z.of_nat n; body := ErrorJson |},
       refused written req (table w))
  | HttpErrorPage n written =>
      (Some {| status_code := 400 + Z.of_nat n; body := NotJson |},
       refused written req (table w))
  | Garbled =>
      let (resp, rows) := serve env req (table w) in
      (Some {| status_code := status_code resp; body := NotJson |}, rows)
  | Unreachable => (None, table w)
  end.

(** ** Effects *)

Definition M (A : Type) : Type := Env -> World -> outcome A * World.

Definition ret {A} (a : A) : M A := fun _ w => (Ok a, w).

Definition bind {A B} (m : M A) (k : A -> M B) : M B :=
  fun env w =>
    match m env w with
    | (Ok a, w') => k a env w'
    | (Raise e, w') => (Raise e, w')
    | (SysExit, w') => (SysExit, w')
    end.

Notation "x <- m ;; k" := (bind m (fun x => k))
  (at level 61, m at next level, right associativity).

Definition raise {A} (e : exn) : M A := fun _ w => (Raise e, w).

(** [sys.exit()] *)
Definition sys_exit {A} : M A := fun _ w => (SysExit, w).

Definition lift {A} (o : outcome A) : M A := fun _ w => (o, w).

(** [try: m  except Exception: h]; [SystemExit] is not an [Exception] and
    passes through. *)
Definition try_except {A} (m : M A) (h : exn -> M A) : M A :=
  fun env w =>
    match m env w with
    | (Raise e, w') => h e env w'
    | r => r
    end.

(** [datetime.now().timestamp()] *)
Definition datetime_now_timestamp : M float := fun env w => (Ok (clock env), w).

(** [dt.datetime.fromtimestamp(x).strftime('%Y-%m-%d %H:%M:%S')] *)
Definition fromtimestamp_strftime (x : float) : M string :=
  fun env w =>
    match local_strftime env x with
    | Some s => (Ok s, w)
    | None => (Raise (strftime_raises env x), w)
    end.

(** [requests.post]: the request is logged, the remote answers. *)
Definition requests_post (req : Request) : M Response :=
  fun env w =>
    let (reply, rows) := remote env req w in
    let w' := {| table := rows; sent := (sent w ++ [req])%list |} in
    match reply with
    | Some resp => (Ok resp, w')
    | None => (Raise ConnectionError, w')
    end.

(** [response.json()]: the decoded body, or [JSONDecodeError]. *)
Definition json (response : Response) : M Body :=
  match body response with
  | NotJson => raise JSONDecodeError
  | document => ret document
  end.

(** ** The service *)

(** The module-level configuration read at start-up. *)
Record Config := {
  tokenURL : string;
  username : string;
  password : string;
  tableURL : string;
  duration : Z;
  expiration : Z;
  creatorLicences : Z
}.

(** The request body of [POST /add]. *)
Record Item := {
  ID : string;
  item_username : option string
}.

Definition getToken (url tokenUser tokenPassword : string) (tokeExpiration : Z)
  : M string :=
  tokenResponse <- requests_post
    (TokenRequest url tokenUser tokenPassword "." tokeExpiration) ;;
  tokenJson <- json tokenResponse ;;
  match tokenJson with
  | TokenJson tokenResult => ret tokenResult
  | _ => raise (KeyError "token")
  end.

Section Service.

Variable cfg : Config.

Definition getRecords (featureServiceURL : string) : M Z :=
  queryToken <- getToken (tokenURL cfg) (username cfg) (password cfg)
                         (expiration cfg) ;;
  deleteResponse <- requests_post
    (DeleteFeatures (featureServiceURL ++ "/" ++ "deleteFeatures") queryToken
       "end_ < CURRENT_TIMESTAMP") ;;
  if (status_code deleteResponse =? 200)%Z then
    queryResponse <- requests_post
      (Query (featureServiceURL ++ "/" ++ "query") queryToken
         "1=1" "*" "false") ;;
    queryJson <- json queryResponse ;;
    match queryJson with
    | FeaturesJson queryResult => ret (Z.of_nat (List.length queryResult))
    | _ => raise (KeyError "features")
    end
  else
    (* the argument of logger.error, str(deleteResponse.json()), then
       sys.exit() *)
    _ <- json deleteResponse ;;
    sys_exit.

Definition no_licences (item : Item) : dict :=
  [("ID", Str (ID item)); ("creator", of_optional (item_username item));
   ("status", Str "failed");
   ("message", Str "No creator licences available")].

Definition add_failed (item : Item) : dict :=
  [("ID", Str (ID item)); ("creator", of_optional (item_username item));
   ("status", Str "failed"); ("message", Str "Failed to add feature")].

Definition add_succeeded (item : Item) (dateNow endNow : string) (records : Z)
  : dict :=
  [("ID", Str (ID item)); ("creator", of_optional (item_username item));
   ("start", Str dateNow); ("end", Str endNow);
   ("remaining (minutes)", Str (str (duration cfg)));
   ("status", Str "success");
   ("message",
    Str ("remaining creator licences: "
         ++ str (creatorLicences cfg - records - 1)))].

Definition new_lease (item : Item) (now end' : float) : Lease :=
  {| id := ID item; user_ := item_username item; start := now; end_ := end' |}.

Definition create_item (item : Item) : M dict :=
  records <- getRecords (tableURL cfg) ;;
  if (creatorLicences cfg <=? records)%Z then
    ret (no_licences item)
  else
    t <- datetime_now_timestamp ;;
    let now := fmul t (nearest 1000) in
    millis <- lift (float_of_int (duration cfg * 60000)) ;;
    let end' := fadd now millis in
    token <- try_except
      (getToken (tokenURL cfg) (username cfg) (password cfg) (expiration cfg))
      (fun _ => sys_exit) ;;
    response <- requests_post
      (AddFeatures (tableURL cfg ++ "/addFeatures") token
         [new_lease item now end'] "" true false) ;;
    if (status_code response =? 200)%Z then
      dateNow <- fromtimestamp_strftime (fdiv now (nearest 1000)) ;;
      endNow <- fromtimestamp_strftime (fdiv end' (nearest 1000)) ;;
      ret (add_succeeded item dateNow endNow records)
    else
      (* the argument of logger.error, str(response.json()) *)
      _ <- json response ;;
      ret (add_failed item).

Definition licences_available (n : Z) : dict :=
  [("status", Str "success"); ("licences", Str (str n));
   ("message",
    Str ("there exist " ++ str n ++ " remaining creator licences."))].

Definition licences_exhausted : dict :=
  [("status", Str "failed"); ("licences", Str "0");
   ("message", Str "No creator licences available")].

Definition check : M dict :=
  checkRecords <- try_except (getRecords (tableURL cfg)) (fun _ => sys_exit) ;;
  if (creatorLicences cfg >? checkRecords)%Z then
    ret (licences_available (creatorLicences cfg - checkRecords))
  else
    ret licences_exhausted.

End Service.

(** ** Vocabulary of the statements *)

(** The three requests of one purge-and-count, as [getRecords] builds them. *)
Definition token_request (cfg : Config) : Request :=
  TokenRequest (tokenURL cfg) (username cfg) (password cfg) "." (expiration cfg).

Definition purge_request (url token : string) : Request :=
  DeleteFeatures (url ++ "/" ++ "deleteFeatures") token "end_ < CURRENT_TIMESTAMP".

Definition count_request (url token : string) : Request :=
  Query (url ++ "/" ++ "query") token "1=1" "*" "false".

(** The insert of [create_item]. *)
Definition insert_request (cfg : Config) (token : string) (lease : Lease)
  : Request :=
  AddFeatures (tableURL cfg ++ "/addFeatures") token [lease] "" true false.

Definition logged (w : World) (reqs : list Request) : World :=
  {| table := table w; sent := (sent w ++ reqs)%list |}.

Definition position (w : World) : nat := List.length (sent w).

(** The same surroundings with another host clock. *)
Definition with_clock (t : float) (env : Env) : Env :=
  {| clock := t; CURRENT_TIMESTAMP := CURRENT_TIMESTAMP env;
     issued_token := issued_token env; fault_at := fault_at env;
     local_strftime := local_strftime env;
     strftime_raises := strftime_raises env |}.

(** The data model's notion of an active lease: its [end_] is strictly
    later than the current time. *)
Definition active (now : float) (r : Lease) : bool := SFltb now (end_ r).


(** The [status] entry of an answer. *)
Definition status_of (o : outcome dict) : option value :=
  match o with
  | Ok d => get d "status"
  | _ => None
  end.

(** Equality of rows is decidable, so that occurrences can be counted. *)
Definition Lease_eq_dec (r r' : Lease) : {r = r'} + {r <> r'}.
Proof.
  assert (forall x y : float, {x = y} + {x <> y})
    by (decide equality;
        auto using Bool.bool_dec, Pos.eq_dec, Z.eq_dec).
  assert (forall x y : option string, {x = y} + {x <> y})
    by (decide equality; apply string_dec).
  decide equality; apply string_dec.
Defined.

(** The expiry of a lease is exact when, as numbers, its [end_] is its
    [start] plus the configured minutes in milliseconds. *)
Definition exact_expiry (cfg : Config) (lease : Lease) : Prop :=
  match Q_of_float (start lease), Q_of_float (end_ lease) with
  | Some s, Some e => (e == s + inject_Z (duration cfg * 60000))%Q
  | _, _ => False
  end.

(** A whole number of milliseconds. *)
Definition whole (x : float) : Prop :=
  exists z : Z,
    match Q_of_float x with
    | Some q => (q == inject_Z z)%Q
    | None => False
    end.

(** ** Scenarios *)

Module Scenario.

Definition portal (capacity minutes : Z) : Config :=
  {| tokenURL := "https://portal/sharing/rest/generateToken";
     username := "admin"; password := "secret";
     tableURL := "https://portal/server/rest/services/leases/FeatureServer/0";
     duration := minutes; expiration := 60; creatorLicences := capacity |}.

(** [host] is the host clock in seconds, [server] the table server's time
    in milliseconds. *)
Definition surroundings (host : float) (server : Z) (faults : nat -> Fault)
  : Env :=
  {| clock := host; CURRENT_TIMESTAMP := nearest server;
     issued_token := "tok"; fault_at := faults;
     local_strftime := fun _ => Some "%Y-%m-%d %H:%M:%S";
     strftime_raises := fun _ => ValueError |}.

(** 2023-11-14 22:13:20 UTC, in seconds and in milliseconds. *)
Definition t0 : Z := 1700000000.
Definition ms0 : Z := 1700000000000.

Definition healthy : Env := surroundings (nearest t0) ms0 (fun _ => Healthy).

(** One second later. *)
Definition later : Env :=
  surroundings (nearest (t0 + 1)) (ms0 + 1000) (fun _ => Healthy).


(** The host clock reads 1700000000.250003. *)
Definition fractional : Env :=
  surroundings (fdiv (nearest 1700000000250003) (nearest 1000000))
    (ms0 + 250) (fun _ => Healthy).

(** The host clock reads 2199023000.000006, that is 2039-09-07
    15:43:20.000006 UTC: four minutes later the count of milliseconds
    passes [2^41]. *)
Definition late : Env :=
  surroundings (fdiv (nearest 2199023000000006) (nearest 1000000))
    2199023000000 (fun _ => Healthy).

Definition lease (name : string) (ends : Z) : Lease :=
  {| id := name; user_ := Some name; start := nearest (ends - 1800000);
     end_ := nearest ends |}.

Definition world (rows : list Lease) : World := {| table := rows; sent := [] |}.

Definition u1 : Item := {| ID := "u1"; item_username := Some "ann" |}.
Definition u3 : Item := {| ID := "u3"; item_username := None |}.

(** One lease that ended a second ago, one that ends in an hour. *)
Definition one_expired : list Lease :=
  [lease "old" (ms0 - 1000); lease "new" (ms0 + 3600000)].

(** Two leases that end in the future. *)
Definition two_active : list Lease :=
  [lease "a" (ms0 + 60000); lease "b" (ms0 + 120000)].

(** A lease that ends at the very instant of the purge. *)
Definition ending_now : list Lease := [lease "edge" ms0].

(** The world after the purge-and-count, the answer of [POST /add] and
    the world after it. *)
Definition counted (cfg : Config) (env : Env) (w : World) : World :=
  snd (getRecords cfg (tableURL cfg) env w).

Definition answer (cfg : Config) (item : Item) (env : Env) (w : World) : dict :=
  match fst (create_item cfg item env w) with
  | Ok d => d
  | _ => []
  end.

Definition added (cfg : Config) (item : Item) (env : Env) (w : World) : World :=
  snd (create_item cfg item env w).

End Scenario.

(** ** Requests served one after another *)

(** The worlds that any number of [POST /add] and [POST /check] requests,
    each in surroundings of its own and each run to its end before the next
    starts, lead to.  The handlers never await, so one serving process runs
    them this way. *)
Inductive served (cfg : Config) (w : World) : World -> Prop :=
| served_none : served cfg w w
| served_add (w' : World) (item : Item) (env : Env) :
    served cfg w w' -> served cfg w (snd (create_item cfg item env w'))
| served_check (w' : World) (env : Env) :
    served cfg w w' -> served cfg w (snd (check cfg env w')).

(** The number of [addFeatures] requests in a log. *)
Definition inserts (reqs : list Request) : nat :=
  List.length
    (filter (fun req => match req with
                        | AddFeatures _ _ _ _ _ _ => true
                        | _ => false
                        end) reqs).

(** More surroundings. *)
Module Faults.

(** The call at position [k] is answered with status 500. *)
Definition refused_at (k : nat) : Env :=
  Scenario.surroundings (nearest Scenario.t0) Scenario.ms0
    (fun n => if Nat.eqb n k then HttpError 100 0 else Healthy).

(** Every call is served, but the host cannot format a date. *)
Definition unformattable : Env :=
  {| clock := nearest Scenario.t0;
     CURRENT_TIMESTAMP := nearest Scenario.ms0;
     issued_token := "tok"; fault_at := fun _ => Healthy;
     local_strftime := fun _ => None;
     strftime_raises := fun _ => OverflowError |}.

(** The call at position [k] is answered with status 502 and an HTML
    page. *)
Definition error_page_at (k : nat) : Env :=
  Scenario.surroundings (nearest Scenario.t0) Scenario.ms0
    (fun n => if Nat.eqb n k then HttpErrorPage 102 0 else Healthy).

(** The call at position [k] gets no answer. *)
Definition unreachable_at (k : nat) : Env :=
  Scenario.surroundings (nearest Scenario.t0) Scenario.ms0
    (fun n => if Nat.eqb n k then Unreachable else Healthy).

End Faults.

(** ** Start-up: the number of creator licences

    The loop over the portal's user types that sets [creatorLicences].
    Every exception in that block is caught and ends the process, so the
    exceptions are not told apart: [None] is [sys.exit()]. *)

Module Startup.

(** The values of a user type's properties. *)
Inductive json :=
| JInt (z : Z)
| JStr (s : string)
| JNull.

Definition user_type := list (string * json).

(** [userType[key]]; [None] is [KeyError]. *)
Fixpoint getitem (userType : user_type) (key : string) : option json :=
  match userType with
  | [] => None
  | (k, v) :: rest => if String.eqb k key then Some v else getitem rest key
  end.

(** [v == s] for a [str] [s]. *)
Definition eq_str (v : json) (s : string) : bool :=
  match v with
  | JStr s' => String.eqb s' s
  | _ => false
  end.

Section Int.

(** [int(s)] for a [str]; [None] is [ValueError]. *)
Variable int_of_str : string -> option Z.

(** [int(v)]; [None] is [ValueError] or [TypeError]. *)
Definition int (v : json) : option Z :=
  match v with
  | JInt z => Some z
  | JStr s => int_of_str s
  | JNull => None
  end.

Fixpoint creator_licences (userTypes : list user_type) : option Z :=
  match userTypes with
  | [] => Some 0%Z
  | userType :: rest =>
      match getitem userType "id" with
      | None => None
      | Some v =>
          if eq_str v "creatorUT" then
            match getitem userType "maximumRegisteredMembers" with
            | None => None
            | Some n => int n
            end
          else creator_licences rest
      end
  end.

End Int.

(** A user type that is not the creator's. *)
Definition other (userType : user_type) : Prop :=
  exists v, getitem userType "id" = Some v /\ eq_str v "creatorUT" = false.

End Startup.

(** ** The OpenAPI schema of the application *)

Module OpenApi.

Section Schema.

(** The schema, a dictionary; [is_empty] is its truth value negated. *)
Variable Schema : Type.
Variable is_empty : Schema -> bool.

(** [fastapi.openapi.utils.get_openapi(title, version, description, routes)] *)
Variable get_openapi : string -> string -> string -> list string -> Schema.

(** The application: its cached schema, its routes, and how often the
    schema has been generated. *)
Record App := {
  openapi_schema : option Schema;
  routes : list string;
  generated : nat
}.

Definition custom_openapi (app : App) : Schema * App :=
  let generate :=
    let openapi_schema' :=
      get_openapi "GeoWorks API" "1.0.0"
        "This is a simple API to check the availability of the creators and insert the data into the database."
        (routes app) in
    (openapi_schema',
     {| openapi_schema := Some openapi_schema'; routes := routes app;
        generated := S (generated app) |}) in
  match openapi_schema app with
  | Some schema => if is_empty schema then generate else (schema, app)
  | None => generate
  end.

End Schema.

End OpenApi.

(** ** The downloader of the countries' data

    [Programming/Python/DownloadGISData/main.py]: the dictionary of the
    countries and the loop that fetches one archive per country and code.
    The web and the disk are its surroundings: a request can raise, and so
    can the making of a directory, the opening of a file and the writing to
    it.  The whole loop sits in one [try] whose handler is [sys.exit(1)], so
    an exception anywhere in it is the ending [Exit1]. *)

Module Download.

(** An entry of [pycountry.countries]. *)
Record Country := {
  alpha_3 : string;
  name : string
}.

(** A [dict] from [str] to [str], in the order of insertion. *)
Definition pydict := list (string * string).

Fixpoint getitem (d : pydict) (key : string) : option string :=
  match d with
  | [] => None
  | (k, v) :: rest => if String.eqb k key then Some v else getitem rest key
  end.

(** [d[key] = value] *)
Fixpoint setitem (d : pydict) (key value : string) : pydict :=
  match d with
  | [] => [(key, value)]
  | (k, v) :: rest =>
      if String.eqb k key then (k, value) :: rest
      else (k, v) :: setitem rest key value
  end.

Definition generate_countries_dict (pycountry_countries : list Country)
  : pydict :=
  fold_left
    (fun countries_dict country =>
       setitem countries_dict (alpha_3 country) (name country))
    pycountry_countries [].

(** The disk: the directories made and the files written. *)
Record Disk := {
  folders : list string;
  contents : pydict
}.

(** The disk, the URLs fetched so far and the lines logged so far. *)
Record State := {
  disk : Disk;
  fetched : list string;
  log : list string
}.

Inductive ending :=
| Completed
| Exit1.

Definition os_path_exists (d : Disk) (path : string) : bool :=
  existsb (String.eqb path) (folders d)
  || match getitem (contents d) path with
     | Some _ => true
     | None => false
     end.

Definition os_makedirs (d : Disk) (path : string) : Disk :=
  {| folders := path :: folders d; contents := contents d |}.

Definition write (d : Disk) (path data : string) : Disk :=
  {| folders := folders d; contents := setitem (contents d) path data |}.

Section Main.

(** [requests.get(url)]: the status and the content of the response, or
    [None] when it raises. *)
Variable requests_get : string -> option (Z * string).

(** Where the disk refuses: [os.makedirs(path)] raises, [open(path, 'wb')]
    raises, or [f.write(content)] raises after the file has been created,
    leaving in it the part that was written. *)
Variable os_makedirs_raises : Disk -> string -> bool.
Variable open_raises : Disk -> string -> bool.
Variable write_raises : Disk -> string -> string -> option string.

(** The values of [config.ini]. *)
Variable url : string.
Variables codes files : list string.

(** The body of the inner loop. *)
Definition download_one (key value : string) (i : nat) (st : State)
  : ending * State :=
  match nth_error codes i with
  | None => (Exit1, st)
  | Some code =>
      let tempUrl := (url ++ code) ++ ("/" ++ key ++ "_" ++ code ++ ".zip") in
      let st1 := {| disk := disk st; fetched := (fetched st ++ [tempUrl])%list;
                    log := log st |} in
      match requests_get tempUrl with
      | None => (Exit1, st1)
      | Some (status_code, content) =>
          if (status_code =? 200)%Z then
            let tempFolderName := "countries/" ++ value in
            let exited (d : Disk) :=
              (Exit1, {| disk := d; fetched := fetched st1; log := log st1 |}) in
            let made :=
              if os_path_exists (disk st1) tempFolderName then Some (disk st1)
              else if os_makedirs_raises (disk st1) tempFolderName then None
              else Some (os_makedirs (disk st1) tempFolderName) in
            match made with
            | None => exited (disk st1)
            | Some disk1 =>
                match nth_error files i with
                | None => exited disk1
                | Some file =>
                    let path :=
                      "countries/" ++ value ++ "/" ++ file ++ ".zip" in
                    if open_raises disk1 path then exited disk1
                    else
                      match write_raises disk1 path content with
                      | Some written => exited (write disk1 path written)
                      | None =>
                          (Completed,
                           {| disk := write disk1 path content;
                              fetched := fetched st1;
                              log := (log st1
                                      ++ [("**" ++ value ++ " " ++ code
                                           ++ " data downloaded successfully**")%string])%list |})
                      end
                end
            end
          else
            (Completed,
             {| disk := disk st1; fetched := fetched st1;
                log := (log st1
                        ++ [("$$Failed to download " ++ value ++ " " ++ code
                             ++ " data$$")%string])%list |})
      end
  end.

(** [for i in ...] over the indices that are left. *)
Fixpoint for_codes (key value : string) (indices : list nat) (st : State)
  : ending * State :=
  match indices with
  | [] => (Completed, st)
  | i :: rest =>
      match download_one key value i st with
      | (Completed, st') => for_codes key value rest st'
      | exited => exited
      end
  end.

(** [for key, value in countries.items()] *)
Fixpoint for_countries (items : pydict) (st : State) : ending * State :=
  match items with
  | [] => (Completed, st)
  | (key, value) :: rest =>
      match for_codes key value (seq 0 (List.length codes)) st with
      | (Completed, st') => for_countries rest st'
      | exited => exited
      end
  end.

Definition download (pycountry_countries : list Country) (st : State)
  : ending * State :=
  for_countries (generate_countries_dict pycountry_countries) st.

(** The URL of a country's archive for a code. *)
Definition archive (key code : string) : string :=
  (url ++ code) ++ ("/" ++ key ++ "_" ++ code ++ ".zip").

(** The URLs of all countries and codes, in the order of the loops. *)
Definition archives (items : pydict) : list string :=
  flat_map (fun item => map (archive (fst item)) codes) items.

End Main.

End Download.

(** ** More scenarios *)

Module Cases.

(** A running lease under the name [name]. *)
Definition running (name : string) : World :=
  Scenario.world [Scenario.lease name (Scenario.ms0 + 60000)].

(** The user types of a portal: viewers first, then creators. *)
Definition viewers : Startup.user_type :=
  [("id", Startup.JStr "viewerUT");
   ("maximumRegisteredMembers", Startup.JInt 100)].

Definition creators : Startup.user_type :=
  [("id", Startup.JStr "creatorUT");
   ("maximumRegisteredMembers", Startup.JInt 25)].

(** An application that has not generated its schema yet; a schema is the
    list of its entries. *)
Definition fresh_app : OpenApi.App (list string) :=
  {| OpenApi.openapi_schema := None;
     OpenApi.routes := ["/add"; "/check"];
     OpenApi.generated := 0 |}.

Definition no_entries (schema : list string) : bool :=
  match schema with
  | [] => true
  | _ => false
  end.

Definition titled (title version description : string) (routes : list string)
  : list string :=
  title :: version :: routes.

(** Two countries and the values of a configuration. *)
Definition italy : Download.Country :=
  {| Download.alpha_3 := "ITA"; Download.name := "Italy" |}.

Definition france : Download.Country :=
  {| Download.alpha_3 := "FRA"; Download.name := "France" |}.

Definition base : string := "https://data.example/".

Definition empty_disk : Download.State :=
  {| Download.disk := {| Download.folders := []; Download.contents := [] |};
     Download.fetched := []; Download.log := [] |}.

(** A server that knows no archive, and one that has them all. *)
(** A disk that refuses nothing, and a disk on which no file can be
    opened. *)
Definition willing (d : Download.Disk) (path : string) : bool := false.
Definition writable (d : Download.Disk) (path content : string)
  : option string := None.
Definition read_only (d : Download.Disk) (path : string) : bool := true.

Definition not_found (u : string) : option (Z * string) := Some (404%Z, "").
Definition found (u : string) : option (Z * string) := Some (200%Z, "PK").

End Cases.

(** ** Running the effects *)

Local Open Scope Z_scope.

Lemma bind_Ok {A B} (m : M A) (k : A -> M B) env w a w' :
  m env w = (Ok a, w') -> bind m k env w = k a env w'.
Proof. intros H. unfold bind. now rewrite H. Qed.

Lemma try_except_Ok {A} (m : M A) h env w a w' :
  m env w = (Ok a, w') -> try_except m h env w = (Ok a, w').
Proof. intros H. unfold try_except. now rewrite H. Qed.

Lemma position_logged w reqs :
  position (logged w reqs) = (position w + List.length reqs)%nat.
Proof. unfold position, logged. simpl. apply length_app. Qed.

Lemma logged_logged w l1 l2 :
  logged (logged w l1) l2 = logged w (l1 ++ l2)%list.
Proof. unfold logged. simpl. now rewrite app_assoc. Qed.

Lemma filter_all {A} (l : list A) : filter (fun _ => true) l = l.
Proof. induction l as [|a l IH]; simpl; [reflexivity | now rewrite IH]. Qed.

(** What one [requests.post] does, fault by fault. *)
Lemma requests_post_spec req env w :
  requests_post req env w =
  match fault_at env (position w) with
  | Healthy =>
      (Ok (fst (serve env req (table w))),
       {| table := snd (serve env req (table w));
          sent := (sent w ++ [req])%list |})
  | HttpError n written =>
      (Ok {| status_code := 400 + Z.of_nat n; body := ErrorJson |},
       {| table := refused written req (table w);
          sent := (sent w ++ [req])%list |})
  | HttpErrorPage n written =>
      (Ok {| status_code := 400 + Z.of_nat n; body := NotJson |},
       {| table := refused written req (table w);
          sent := (sent w ++ [req])%list |})
  | Garbled =>
      (Ok {| status_code := status_code (fst (serve env req (table w)));
             body := NotJson |},
       {| table := snd (serve env req (table w));
          sent := (sent w ++ [req])%list |})
  | Unreachable => (Raise ConnectionError, logged w [req])
  end.
Proof.
  unfold requests_post, remote, position, logged.
  destruct (fault_at env (List.length (sent w))); try reflexivity;
    now destruct (serve env req (table w)).
Qed.

(** [getToken] sends one request and never touches the table. *)
Lemma getToken_spec url user pw exp env w :
  getToken url user pw exp env w =
  (match fault_at env (position w) with
   | Healthy => Ok (issued_token env)
   | HttpError _ _ => Raise (KeyError "token")
   | HttpErrorPage _ _ | Garbled => Raise JSONDecodeError
   | Unreachable => Raise ConnectionError
   end,
   logged w [TokenRequest url user pw "." exp]).
Proof.
  unfold getToken, bind. rewrite requests_post_spec.
  destruct (fault_at env (position w)); reflexivity.
Qed.

(** [getRecords], fault by fault: the token exchange, the purge, the count. *)
Lemma getRecords_spec cfg url env w :
  getRecords cfg url env w =
  let tok := issued_token env in
  match fault_at env (position w) with
  | Healthy =>
      let purged := logged w [token_request cfg; purge_request url tok] in
      let rows := purge (CURRENT_TIMESTAMP env) (table w) in
      let w' := {| table := rows;
                   sent := (sent w ++ [token_request cfg;
                                       purge_request url tok;
                                       count_request url tok])%list |} in
      match fault_at env (S (position w)) with
      | Healthy | Garbled =>
          match fault_at env (S (S (position w))) with
          | Healthy => (Ok (Z.of_nat (List.length rows)), w')
          | HttpError _ _ => (Raise (KeyError "features"), w')
          | HttpErrorPage _ _ | Garbled => (Raise JSONDecodeError, w')
          | Unreachable => (Raise ConnectionError, w')
          end
      | HttpError _ _ => (SysExit, purged)
      | HttpErrorPage _ _ => (Raise JSONDecodeError, purged)
      | Unreachable => (Raise ConnectionError, purged)
      end
  | HttpError _ _ => (Raise (KeyError "token"), logged w [token_request cfg])
  | HttpErrorPage _ _ | Garbled =>
      (Raise JSONDecodeError, logged w [token_request cfg])
  | Unreachable => (Raise ConnectionError, logged w [token_request cfg])
  end.
Proof.
  assert (Hcount : forall w2 : World,
    table w2 = purge (CURRENT_TIMESTAMP env) (table w) ->
    sent w2 = (sent w ++ [token_request cfg;
                          purge_request url (issued_token env)])%list ->
    (queryResponse <- requests_post (count_request url (issued_token env)) ;;
     queryJson <- json queryResponse ;;
     match queryJson with
     | FeaturesJson queryResult => ret (Z.of_nat (List.length queryResult))
     | _ => raise (KeyError "features")
     end) env w2 =
    let w' := {| table := purge (CURRENT_TIMESTAMP env) (table w);
                 sent := (sent w ++ [token_request cfg;
                                     purge_request url (issued_token env);
                                     count_request url (issued_token env)])%list |} in
    match fault_at env (S (S (position w))) with
    | Healthy =>
        (Ok (Z.of_nat (List.length (purge (CURRENT_TIMESTAMP env) (table w)))), w')
    | HttpError _ _ => (Raise (KeyError "features"), w')
    | HttpErrorPage _ _ | Garbled => (Raise JSONDecodeError, w')
    | Unreachable => (Raise ConnectionError, w')
    end).
  { intros w2 Ht Hs. unfold bind at 1. rewrite requests_post_spec.
    unfold position at 1. rewrite Hs, Ht, length_app. simpl List.length.
    replace (List.length (sent w) + 2)%nat with (S (S (position w)))
      by (unfold position; lia).
    rewrite <- app_assoc. simpl app. cbv zeta.
    destruct (fault_at env (S (S (position w)))) eqn:F2.
    - cbn [serve count_request fst snd].
      change (sql_where "1=1" (CURRENT_TIMESTAMP env))
        with (Some (fun _ : Lease => true)).
      cbn [fst snd]. rewrite filter_all. reflexivity.
    - reflexivity.
    - reflexivity.
    - cbn [serve count_request fst snd].
      change (sql_where "1=1" (CURRENT_TIMESTAMP env))
        with (Some (fun _ : Lease => true)).
      reflexivity.
    - unfold logged. rewrite Hs, Ht, <- app_assoc. reflexivity. }
  unfold getRecords. unfold bind at 1. rewrite getToken_spec.
  fold (token_request cfg).
  destruct (fault_at env (position w)) eqn:F0; try reflexivity.
  unfold bind at 1. rewrite requests_post_spec, position_logged.
  simpl List.length. rewrite Nat.add_1_r.
  fold (purge_request url (issued_token env)).
  fold (count_request url (issued_token env)).
  cbv zeta.
  destruct (fault_at env (S (position w))) eqn:F1.
  - cbn [serve purge_request fst snd].
    change (sql_where "end_ < CURRENT_TIMESTAMP" (CURRENT_TIMESTAMP env))
      with (Some (expired (CURRENT_TIMESTAMP env))).
    cbn [fst snd status_code]. cbn [Z.eqb Pos.eqb].
    rewrite Hcount; [reflexivity | reflexivity |].
    cbn [sent logged]. rewrite <- app_assoc. reflexivity.
  - cbn [status_code].
    replace (400 + Z.of_nat n =? 200)%Z with false
      by (symmetry; apply Z.eqb_neq; lia).
    unfold logged. cbn [refused purge_request table sent].
    rewrite <- app_assoc. reflexivity.
  - cbn [status_code].
    replace (400 + Z.of_nat n =? 200)%Z with false
      by (symmetry; apply Z.eqb_neq; lia).
    unfold logged. cbn [refused purge_request table sent].
    rewrite <- app_assoc. reflexivity.
  - cbn [serve purge_request fst snd].
    change (sql_where "end_ < CURRENT_TIMESTAMP" (CURRENT_TIMESTAMP env))
      with (Some (expired (CURRENT_TIMESTAMP env))).
    cbn [fst snd status_code]. cbn [Z.eqb Pos.eqb].
    rewrite Hcount; [reflexivity | reflexivity |].
    cbn [sent logged]. rewrite <- app_assoc. reflexivity.
  - rewrite logged_logged. reflexivity.
Qed.

(** [getRecords] returns a count only when the token was issued and the
    purge and the count were served; the body of the purge's reply is never
    read. *)
Lemma getRecords_Ok cfg url env w A w1 :
  getRecords cfg url env w = (Ok A, w1) ->
  fault_at env (position w) = Healthy /\
  (fault_at env (S (position w)) = Healthy \/
   fault_at env (S (position w)) = Garbled) /\
  fault_at env (S (S (position w))) = Healthy /\
  A = Z.of_nat (List.length (purge (CURRENT_TIMESTAMP env) (table w))) /\
  w1 = {| table := purge (CURRENT_TIMESTAMP env) (table w);
          sent := (sent w ++ [token_request cfg;
                              purge_request url (issued_token env);
                              count_request url (issued_token env)])%list |}.
Proof.
  rewrite getRecords_spec. cbv zeta.
  destruct (fault_at env (position w)); try discriminate.
  destruct (fault_at env (S (position w))); try discriminate;
    (destruct (fault_at env (S (S (position w)))); try discriminate;
     intros H; injection H as HA Hw; subst; repeat split; auto).
Qed.


(** [POST /add] when the count has reached the capacity. *)
Lemma create_item_denied cfg item env w A w1 :
  getRecords cfg (tableURL cfg) env w = (Ok A, w1) ->
  creatorLicences cfg <= A ->
  create_item cfg item env w = (Ok (no_licences item), w1).
Proof.
  intros HR HA. unfold create_item.
  rewrite (bind_Ok _ _ _ _ _ _ HR).
  apply Z.leb_le in HA. rewrite HA. reflexivity.
Qed.

(** [POST /add] below the capacity, path by path. *)
Lemma create_item_granted cfg item env w A w1 :
  getRecords cfg (tableURL cfg) env w = (Ok A, w1) ->
  A < creatorLicences cfg ->
  create_item cfg item env w =
  let now := fmul (clock env) (nearest 1000) in
  match float_of_int (duration cfg * 60000) with
  | Ok millis =>
      let lease := new_lease item now (fadd now millis) in
      let req := insert_request cfg (issued_token env) lease in
      match fault_at env (position w1) with
      | Healthy =>
          match fault_at env (S (position w1)) with
          | Healthy | Garbled =>
              let w3 := {| table := (table w1 ++ [lease])%list;
                           sent := (sent w1 ++ [token_request cfg; req])%list |} in
              match local_strftime env (fdiv now (nearest 1000)) with
              | Some dateNow =>
                  match local_strftime env
                          (fdiv (fadd now millis) (nearest 1000)) with
                  | Some endNow =>
                      (Ok (add_succeeded cfg item dateNow endNow A), w3)
                  | None =>
                      (Raise (strftime_raises env
                                (fdiv (fadd now millis) (nearest 1000))), w3)
                  end
              | None =>
                  (Raise (strftime_raises env (fdiv now (nearest 1000))), w3)
              end
          | HttpError _ _ =>
              (Ok (add_failed item), logged w1 [token_request cfg; req])
          | HttpErrorPage _ _ =>
              (Raise JSONDecodeError, logged w1 [token_request cfg; req])
          | Unreachable =>
              (Raise ConnectionError, logged w1 [token_request cfg; req])
          end
      | _ => (SysExit, logged w1 [token_request cfg])
      end
  | Raise e => (Raise e, w1)
  | SysExit => (SysExit, w1)
  end.
Proof.
  intros HR HA. unfold create_item.
  rewrite (bind_Ok _ _ _ _ _ _ HR).
  replace (creatorLicences cfg <=? A)%Z with false
    by (symmetry; apply Z.leb_gt; exact HA).
  unfold bind at 1. unfold datetime_now_timestamp.
  unfold bind at 1. unfold lift.
  destruct (float_of_int (duration cfg * 60000)) as [millis|e|]; try reflexivity.
  cbv zeta. unfold bind at 1. unfold try_except. rewrite getToken_spec.
  fold (token_request cfg).
  destruct (fault_at env (position w1)) eqn:F0; try reflexivity.
  unfold bind at 1. rewrite requests_post_spec, position_logged.
  simpl List.length. rewrite Nat.add_1_r.
  fold (insert_request cfg (issued_token env)
          (new_lease item (fmul (clock env) (nearest 1000))
             (fadd (fmul (clock env) (nearest 1000)) millis))).
  assert (Hfmt : forall w3 : World,
    (dateNow <- fromtimestamp_strftime
                  (fdiv (fmul (clock env) (nearest 1000)) (nearest 1000)) ;;
     endNow <- fromtimestamp_strftime
                 (fdiv (fadd (fmul (clock env) (nearest 1000)) millis)
                       (nearest 1000)) ;;
     ret (add_succeeded cfg item dateNow endNow A)) env w3 =
    match local_strftime env (fdiv (fmul (clock env) (nearest 1000))
                                   (nearest 1000)) with
    | Some dateNow =>
        match local_strftime env
                (fdiv (fadd (fmul (clock env) (nearest 1000)) millis)
                      (nearest 1000)) with
        | Some endNow => (Ok (add_succeeded cfg item dateNow endNow A), w3)
        | None =>
            (Raise (strftime_raises env
                      (fdiv (fadd (fmul (clock env) (nearest 1000)) millis)
                            (nearest 1000))), w3)
        end
    | None =>
        (Raise (strftime_raises env
                  (fdiv (fmul (clock env) (nearest 1000)) (nearest 1000))), w3)
    end).
  { intros w3. unfold bind, fromtimestamp_strftime.
    destruct (local_strftime env (fdiv (fmul (clock env) (nearest 1000))
                                       (nearest 1000))); try reflexivity.
    destruct (local_strftime env
                (fdiv (fadd (fmul (clock env) (nearest 1000)) millis)
                      (nearest 1000))); reflexivity. }
  destruct (fault_at env (S (position w1))) eqn:F1.
  - cbn [serve insert_request fst snd status_code logged table sent].
    cbn [Z.eqb Pos.eqb]. rewrite <- app_assoc. simpl app.
    apply Hfmt.
  - cbn [status_code].
    replace (400 + Z.of_nat n =? 200)%Z with false
      by (symmetry; apply Z.eqb_neq; lia).
    unfold logged. cbn [refused insert_request table sent].
    rewrite <- app_assoc. reflexivity.
  - cbn [status_code].
    replace (400 + Z.of_nat n =? 200)%Z with false
      by (symmetry; apply Z.eqb_neq; lia).
    unfold logged. cbn [refused insert_request table sent].
    rewrite <- app_assoc. reflexivity.
  - cbn [serve insert_request fst snd status_code logged table sent].
    cbn [Z.eqb Pos.eqb]. rewrite <- app_assoc. simpl app.
    apply Hfmt.
  - rewrite logged_logged. reflexivity.
Qed.

(** [POST /check], given the count. *)
Lemma check_counted cfg env w A w1 :
  getRecords cfg (tableURL cfg) env w = (Ok A, w1) ->
  check cfg env w =
  (Ok (if (creatorLicences cfg >? A)%Z
       then licences_available (creatorLicences cfg - A)
       else licences_exhausted), w1).
Proof.
  intros HR. unfold check.
  rewrite (bind_Ok _ _ _ _ _ _ (try_except_Ok _ _ _ _ _ _ HR)).
  destruct (creatorLicences cfg >? A)%Z; reflexivity.
Qed.

(** ** Facts about the purge *)

Lemma SFltb_irrefl (x : float) : SFltb x x = false.
Proof.
  unfold SFltb, SFcompare.
  destruct x as [s|s| |s m e]; try destruct s; try reflexivity;
    rewrite Z.compare_refl, ?Pos.compare_cont_refl; reflexivity.
Qed.

Lemma SFeqb_not_ltb (x y : float) : SFeqb x y = true -> SFltb x y = false.
Proof.
  unfold SFeqb, SFltb. destruct (SFcompare x y) as [[| |]|]; congruence.
Qed.

Lemma SFeqb_finite s m e s' m' e' :
  SFeqb (S754_finite s m e) (S754_finite s' m' e') = true ->
  s = s' /\ m = m' /\ e = e'.
Proof.
  unfold SFeqb, SFcompare. fold (Pos.compare m m').
  destruct s, s'; try discriminate;
    destruct (Z.compare_spec e e') as [->| |]; try discriminate;
    destruct (Pos.compare_spec m m') as [->| |]; try discriminate;
    auto.
Qed.

Lemma SFeqb_not_gtb (x y : float) : SFeqb x y = true -> SFltb y x = false.
Proof.
  destruct x as [[|]|[|]| |s m e], y as [[|]|[|]| |s' m' e'];
    try discriminate; try reflexivity; try (now destruct s);
    try (now destruct s').
  intros H. apply SFeqb_finite in H as (-> & -> & ->). apply SFltb_irrefl.
Qed.

Lemma SFltb_leb_trans (x y z : float) :
  SFltb x y = true -> SFleb y z = true -> SFltb x z = true.
Proof.
  unfold SFltb, SFleb, SFcompare.
  destruct x as [[|]|[|]| |[|] mx ex], y as [[|]|[|]| |[|] my ey],
           z as [[|]|[|]| |[|] mz ez];
    try discriminate; try reflexivity;
    fold (Pos.compare mx my); fold (Pos.compare my mz);
    fold (Pos.compare mx mz);
    destruct (Z.compare_spec ex ey); try discriminate;
    destruct (Z.compare_spec ey ez); try discriminate;
    destruct (Z.compare_spec ex ez); try lia; try reflexivity;
    destruct (Pos.compare_spec mx my); try discriminate;
    destruct (Pos.compare_spec my mz); try discriminate;
    destruct (Pos.compare_spec mx mz); try lia; try reflexivity.
Qed.

Lemma purge_In now rows r :
  In r (purge now rows) <-> In r rows /\ expired now r = false.
Proof.
  unfold purge, delete_where. rewrite filter_In.
  now rewrite negb_true_iff.
Qed.

Lemma purge_idempotent now rows : purge now (purge now rows) = purge now rows.
Proof.
  unfold purge, delete_where.
  induction rows as [|r rows IH]; simpl; [reflexivity|].
  destruct (expired now r) eqn:E; simpl; [exact IH|].
  rewrite E. simpl. now rewrite IH.
Qed.

(** A purge followed by a purge at a later time is the later purge. *)
Lemma purge_purge_later now now' rows :
  SFleb now now' = true -> purge now' (purge now rows) = purge now' rows.
Proof.
  intros Hle. unfold purge, delete_where.
  induction rows as [|r rows IH]; simpl; [reflexivity|].
  destruct (expired now r) eqn:E; simpl.
  - unfold expired in E |- *.
    rewrite (SFltb_leb_trans _ _ _ E Hle). simpl. exact IH.
  - destruct (expired now' r); simpl; now rewrite IH.
Qed.

Lemma purge_count_occ now rows r :
  count_occ Lease_eq_dec (purge now rows) r =
  if expired now r then 0%nat else count_occ Lease_eq_dec rows r.
Proof.
  unfold purge, delete_where.
  induction rows as [|r' rows IH]; simpl.
  - now destruct (expired now r).
  - destruct (Lease_eq_dec r' r) as [->|N].
    + destruct (expired now r) eqn:E; simpl.
      * exact IH.
      * destruct (Lease_eq_dec r r); [now rewrite IH | contradiction].
    + destruct (expired now r') eqn:E'; simpl; [exact IH|].
      destruct (Lease_eq_dec r' r); [contradiction | exact IH].
Qed.

Lemma filter_length_lt {A} (f : A -> bool) (l : list A) (a : A) :
  In a l -> f a = false -> (List.length (filter f l) < List.length l)%nat.
Proof.
  induction l as [|b l IH]; simpl; [contradiction|].
  intros [->|Hin] Hf.
  - rewrite Hf. pose proof (filter_length_le f l). lia.
  - specialize (IH Hin Hf). destruct (f b); simpl; lia.
Qed.

(** ** Binary64 arithmetic without rounding *)

Lemma digits2_pos_bounds (p : positive) :
  2 ^ (Zpos (digits2_pos p) - 1) <= Zpos p < 2 ^ Zpos (digits2_pos p).
Proof.
  assert (step : forall d x y, 0 < d -> 2 ^ (d - 1) <= x < 2 ^ d -> 0 <= y <= 1 ->
                 2 ^ (Z.succ d - 1) <= 2 * x + y < 2 ^ Z.succ d).
  { intros d x y Hd H Hy.
    replace (Z.succ d - 1) with (Z.succ (d - 1)) by lia.
    rewrite !Z.pow_succ_r by lia.
    revert H. generalize (2 ^ (d - 1)) (2 ^ d). intros; lia. }
  induction p as [p IH|p IH|]; cbn [digits2_pos].
  - rewrite Pos2Z.inj_succ. change (Zpos p~1) with (2 * Zpos p + 1).
    apply step; lia.
  - rewrite Pos2Z.inj_succ. replace (Zpos p~0) with (2 * Zpos p + 0) by lia.
    apply step; lia.
  - simpl. lia.
Qed.

Lemma digits2_pos_unique (p : positive) (d : Z) :
  2 ^ (d - 1) <= Zpos p < 2 ^ d -> Zpos (digits2_pos p) = d.
Proof.
  intros [L U]. pose proof (digits2_pos_bounds p) as [L' U'].
  assert (0 < d).
  { destruct (Z.lt_ge_cases 0 d) as [|N]; [assumption|].
    destruct (Z.eq_dec d 0) as [->|]; [simpl in U; lia|].
    rewrite Z.pow_neg_r in U by lia. lia. }
  assert (d - 1 < Zpos (digits2_pos p)).
  { apply (Z.pow_lt_mono_r_iff 2); lia. }
  assert (Zpos (digits2_pos p) - 1 < d).
  { apply (Z.pow_lt_mono_r_iff 2); lia. }
  lia.
Qed.

Lemma iter_xO_value (p k : positive) :
  Zpos (Pos.iter xO p k) = Zpos p * 2 ^ Zpos k.
Proof.
  induction k as [|k IH] using Pos.peano_ind.
  - simpl. lia.
  - rewrite Pos.iter_succ, Pos2Z.inj_succ, Z.pow_succ_r by lia.
    change (Zpos (Pos.iter xO p k)~0) with (2 * Zpos (Pos.iter xO p k)).
    rewrite IH. ring.
Qed.

Lemma digits2_pos_scaled (p x : positive) (k : Z) :
  0 <= k -> Zpos x = Zpos p * 2 ^ k ->
  Zpos (digits2_pos x) = Zpos (digits2_pos p) + k.
Proof.
  intros Hk Hx. apply digits2_pos_unique. rewrite Hx.
  pose proof (digits2_pos_bounds p) as [L U].
  assert (0 < 2 ^ k) by (apply Z.pow_pos_nonneg; lia).
  replace (Zpos (digits2_pos p) + k - 1)
    with ((Zpos (digits2_pos p) - 1) + k) by lia.
  rewrite (Z.pow_add_r 2 (Zpos (digits2_pos p) - 1) k),
          (Z.pow_add_r 2 (Zpos (digits2_pos p)) k) by lia.
  nia.
Qed.

Lemma iter_pos_iter {A} (f : A -> A) (k : positive) (x : A) :
  iter_pos f k x = Pos.iter f x k.
Proof.
  revert x. induction k as [k IH|k IH|]; intros x; simpl.
  - now rewrite !IH, !Pos.iter_swap.
  - now rewrite !IH.
  - reflexivity.
Qed.

Lemma shr_iter_xO (q k : positive) :
  iter_pos shr_1 k {| shr_m := Zpos (Pos.iter xO q k); shr_r := false; shr_s := false |}
  = {| shr_m := Zpos q; shr_r := false; shr_s := false |}.
Proof.
  rewrite iter_pos_iter.
  induction k as [|k IH] using Pos.peano_ind.
  - reflexivity.
  - rewrite Pos.iter_succ_r, Pos.iter_succ. simpl shr_1. exact IH.
Qed.

(** A mantissa of 53 bits at an exponent in range is its own rounding. *)
Lemma binary_round_aux_canonical s (m : positive) (e : Z) :
  Zpos (digits2_pos m) = prec -> 3 - emax - prec <= e <= emax - prec ->
  binary_round_aux prec emax s (Zpos m) e loc_Exact = S754_finite s m e.
Proof.
  intros D [L U]. unfold binary_round_aux, shr_fexp.
  cbn [Zdigits2]. rewrite D.
  replace (fexp prec emax (prec + e) - e) with 0
    by (unfold fexp, SpecFloat.emin; lia).
  cbn [shr shr_record_of_loc shr_m loc_of_shr_record round_nearest_even Zdigits2].
  rewrite D.
  replace (fexp prec emax (prec + e) - e) with 0
    by (unfold fexp, SpecFloat.emin; lia).
  cbn [shr shr_record_of_loc shr_m].
  apply Z.leb_le in U. now rewrite U.
Qed.

(** So is such a mantissa followed by [k] zero bits, [k] exponents lower. *)
Lemma binary_round_aux_shifted s (q k : positive) (e : Z) :
  Zpos (digits2_pos q) = prec -> 3 - emax - prec <= e <= emax - prec ->
  binary_round_aux prec emax s (Zpos (Pos.iter xO q k)) (e - Zpos k) loc_Exact
  = S754_finite s q e.
Proof.
  intros D [L U]. unfold binary_round_aux, shr_fexp.
  assert (DK : Zdigits2 (Zpos (Pos.iter xO q k)) = prec + Zpos k).
  { cbn [Zdigits2]. rewrite <- D.
    apply digits2_pos_scaled; [lia | apply iter_xO_value]. }
  rewrite DK.
  replace (fexp prec emax (prec + Zpos k + (e - Zpos k)) - (e - Zpos k)) with (Zpos k)
    by (unfold fexp, SpecFloat.emin; lia).
  cbn [shr shr_record_of_loc]. rewrite shr_iter_xO.
  cbn [shr_m loc_of_shr_record round_nearest_even Zdigits2].
  rewrite D. replace (e - Zpos k + Zpos k) with e by lia.
  replace (fexp prec emax (prec + e) - e) with 0
    by (unfold fexp, SpecFloat.emin; lia).
  cbn [shr shr_record_of_loc shr_m].
  apply Z.leb_le in U. now rewrite U.
Qed.

(** A mantissa that is a 53-bit number times a power of two is
    represented without rounding. *)
Lemma binary_normalize_exact (q : positive) (e k M : Z) :
  Zpos (digits2_pos q) = prec -> 3 - emax - prec <= e <= emax - prec ->
  0 <= k -> M = Zpos q * 2 ^ k ->
  binary_normalize prec emax M (e - k) false = S754_finite false q e.
Proof.
  intros D He Hk HM.
  assert (0 < 2 ^ k) by (apply Z.pow_pos_nonneg; lia).
  destruct M as [|x|x]; try lia.
  unfold binary_normalize, binary_round.
  assert (DX : Zpos (digits2_pos x) = prec + k).
  { rewrite <- D. now apply digits2_pos_scaled. }
  rewrite DX.
  replace (fexp prec emax (prec + k + (e - k))) with e
    by (unfold fexp, SpecFloat.emin; lia).
  unfold shl_align.
  destruct (e - (e - k)) as [|j|j] eqn:E; try lia.
  - assert (k = 0) by lia. subst k. rewrite Z.sub_0_r.
    rewrite Z.pow_0_r, Z.mul_1_r in HM. injection HM as ->.
    now apply binary_round_aux_canonical.
  - assert (k = Zpos j) by lia. subst k.
    rewrite <- iter_xO_value in HM. injection HM as ->.
    now apply binary_round_aux_shifted.
Qed.

(** The conversion of a positive integer below [2^53] is exact. *)
Lemma nearest_exact (n : Z) :
  0 < n < 2 ^ prec ->
  exists mz ez,
    nearest n = S754_finite false mz ez /\
    Zpos (digits2_pos mz) = prec /\ - prec < ez <= 0 /\
    Zpos mz = n * 2 ^ (- ez).
Proof.
  intros [L U]. destruct n as [|p|p]; try lia.
  pose proof (digits2_pos_bounds p) as [L' U'].
  assert (HD : Zpos (digits2_pos p) <= prec).
  { destruct (Z.le_gt_cases (Zpos (digits2_pos p)) prec) as [|G]; [assumption|].
    assert (2 ^ prec <= 2 ^ (Zpos (digits2_pos p) - 1))
      by (apply Z.pow_le_mono_r; lia).
    lia. }
  unfold nearest, binary_normalize, binary_round.
  replace (fexp prec emax (Zpos (digits2_pos p) + 0))
    with (Zpos (digits2_pos p) - prec)
    by (unfold fexp, SpecFloat.emin, prec, emax in *; lia).
  unfold shl_align.
  destruct (Zpos (digits2_pos p) - prec - 0) as [|j|j] eqn:E; try lia.
  - exists p, 0. split; [|split; [|split]].
    + apply binary_round_aux_canonical; unfold prec, emax in *; lia.
    + lia.
    + unfold prec; lia.
    + simpl. lia.
  - exists (Pos.iter xO p j), (Zpos (digits2_pos p) - prec).
    assert (DJ : Zpos (digits2_pos (Pos.iter xO p j)) = prec).
    { rewrite (digits2_pos_scaled p _ (Zpos j)); [lia | lia |].
      apply iter_xO_value. }
    split; [|split; [|split]].
    + apply binary_round_aux_canonical; [exact DJ|].
      unfold prec, emax in *; lia.
    + exact DJ.
    + unfold prec in *; lia.
    + rewrite iter_xO_value. f_equal. f_equal. lia.
Qed.

(** Adding a non-negative integer to a float whose unit in the last place
    is at most one is exact as long as the sum keeps its exponent. *)
Lemma fadd_nearest_exact (m : positive) (e n : Z) :
  2 ^ (prec - 1) <= Zpos m < 2 ^ prec -> - prec < e <= 0 -> 0 <= n ->
  Zpos m + n * 2 ^ (- e) < 2 ^ prec ->
  fadd (S754_finite false m e) (nearest n)
  = S754_finite false (Z.to_pos (Zpos m + n * 2 ^ (- e))) e.
Proof.
  intros Hm He Hn Hsum.
  assert (P : 0 < 2 ^ (- e)) by (apply Z.pow_pos_nonneg; lia).
  destruct (Z.eq_dec n 0) as [->|N].
  - change (nearest 0) with (S754_zero false). unfold fadd. cbn [SFadd].
    now rewrite Z.mul_0_l, Z.add_0_r.
  - assert (Hn' : 0 < n < 2 ^ prec) by nia.
    destruct (nearest_exact n Hn') as (mz & ez & -> & DZ & Hez & HZ).
    assert (Hp : 2 ^ prec = 2 * 2 ^ (prec - 1)) by reflexivity.
    assert (ez <= e).
    { destruct (Z.le_gt_cases ez e) as [|G]; [assumption|exfalso].
      pose proof (digits2_pos_bounds mz) as [LZ _]. rewrite DZ in LZ.
      assert (A1 : 2 ^ (- e) = 2 ^ (- ez) * 2 ^ (ez - e)).
      { rewrite <- Z.pow_add_r by lia. f_equal. lia. }
      assert (A2 : 2 ^ 1 <= 2 ^ (ez - e)) by (apply Z.pow_le_mono_r; lia).
      change (2 ^ 1) with 2 in A2.
      rewrite A1, Z.mul_assoc, <- HZ in Hsum.
      revert Hm Hsum LZ A2 Hp.
      generalize (2 ^ (ez - e)) (2 ^ prec) (2 ^ (prec - 1)).
      intros; nia. }
    unfold fadd, SFadd. rewrite Z.min_r by assumption.
    cbn [cond_Zopp].
    set (q := Z.to_pos (Zpos m + n * 2 ^ (- e))).
    assert (Hq : Zpos q = Zpos m + n * 2 ^ (- e)) by (subst q; lia).
    pose proof (binary_normalize_exact q e (e - ez)) as Hexact.
    replace (e - (e - ez)) with ez in Hexact by lia.
    apply Hexact.
    + apply digits2_pos_unique. rewrite Hq. lia.
    + unfold prec, emax in *; lia.
    + lia.
    + rewrite Hq.
      assert (Hshift : 2 ^ (- ez) = 2 ^ (- e) * 2 ^ (e - ez)).
      { rewrite <- Z.pow_add_r by lia. f_equal. lia. }
      assert (HA : Zpos (fst (shl_align m e ez)) = Zpos m * 2 ^ (e - ez)).
      { unfold shl_align. destruct (ez - e) as [|j|j] eqn:E; try lia.
        - replace (e - ez) with 0 by lia. simpl. lia.
        - cbn [fst]. rewrite iter_xO_value. f_equal. f_equal. lia. }
      assert (HB : Zpos (fst (shl_align mz ez ez)) = Zpos mz).
      { unfold shl_align. rewrite Z.sub_diag. reflexivity. }
      rewrite HA, HB, HZ, Hshift. ring.
Qed.

Lemma pow2_cancel (e : Z) :
  e <= 0 -> (inject_Z (2 ^ (- e)) * inject_Z 2 ^ e == inject_Z 1)%Q.
Proof.
  intros He. rewrite Zpower_Qpower by lia.
  rewrite <- Qpower_plus by discriminate.
  replace (- e + e) with 0 by lia. reflexivity.
Qed.

Lemma Q_of_float_sum (m : positive) (e n : Z) :
  e <= 0 -> 0 <= n ->
  (inject_Z (Zpos (Z.to_pos (Zpos m + n * 2 ^ (- e)))) * inject_Z 2 ^ e
   == inject_Z (Zpos m) * inject_Z 2 ^ e + inject_Z n)%Q.
Proof.
  intros He Hn.
  assert (0 < 2 ^ (- e)) by (apply Z.pow_pos_nonneg; lia).
  rewrite Z2Pos.id by nia.
  rewrite inject_Z_plus, inject_Z_mult, Qmult_plus_distr_l.
  rewrite <- Qmult_assoc, pow2_cancel by assumption.
  now rewrite Qmult_1_r.
Qed.

(** An integer below [2^53] converts without [OverflowError]. *)
Lemma float_of_int_small (n : Z) :
  0 <= n < 2 ^ prec -> float_of_int n = Ok (nearest n).
Proof.
  intros [L U]. unfold float_of_int.
  destruct (Z.eq_dec n 0) as [->|N]; [reflexivity|].
  destruct (nearest_exact n) as (mz & ez & -> & _); [lia | reflexivity].
Qed.

(** ** Admission *)

(** C1. Given the count [A] that purge-and-count returned and the capacity
    [C].  [POST /add] answers with the capacity denial exactly when [A < C]
    fails, and then it has done nothing beyond the count; when [A < C] it
    goes on to the token exchange of the insert and, when the token is
    issued, the insert is served and the dates can be formatted, it answers
    with the success response, the new lease being in the table.
    [POST /check] reports success exactly when [A < C].  At [A = C] both
    report [status: failed]. *)
Theorem admission_iff_below_capacity cfg item env w A w1 :
  getRecords cfg (tableURL cfg) env w = (Ok A, w1) ->
  (A < creatorLicences cfg <->
   fst (create_item cfg item env w) <> Ok (no_licences item)) /\
  (A < creatorLicences cfg <->
   status_of (fst (check cfg env w)) = Some (Str "success")) /\
  (A = creatorLicences cfg ->
   status_of (fst (create_item cfg item env w)) = Some (Str "failed") /\
   status_of (fst (check cfg env w)) = Some (Str "failed")) /\
  (~ A < creatorLicences cfg ->
   create_item cfg item env w = (Ok (no_licences item), w1)) /\
  (A < creatorLicences cfg ->
   forall millis, float_of_int (duration cfg * 60000) = Ok millis ->
   let now := fmul (clock env) (nearest 1000) in
   let lease := new_lease item now (fadd now millis) in
   (exists reqs,
      sent (snd (create_item cfg item env w)) =
      (sent w1 ++ token_request cfg :: reqs)%list) /\
   (fault_at env (position w1) = Healthy ->
    fault_at env (S (position w1)) = Healthy ->
    forall dateNow endNow,
    local_strftime env (fdiv now (nearest 1000)) = Some dateNow ->
    local_strftime env (fdiv (fadd now millis) (nearest 1000)) = Some endNow ->
    create_item cfg item env w =
    (Ok (add_succeeded cfg item dateNow endNow A),
     {| table := (table w1 ++ [lease])%list;
        sent := (sent w1 ++ [token_request cfg;
                             insert_request cfg (issued_token env) lease])%list |}))).
Proof.
  intros HR. rewrite (check_counted _ _ _ _ _ HR). cbn [fst].
  split; [|split; [|split; [|split]]].
  - split.
    + intros HA. rewrite (create_item_granted _ item _ _ _ _ HR HA). cbv zeta.
      destruct (float_of_int _); try discriminate.
      destruct (fault_at env (position w1)); try discriminate.
      destruct (fault_at env (S (position w1))); try discriminate;
        (destruct (local_strftime env _); try discriminate;
         destruct (local_strftime env _); discriminate).
    + intros HN. destruct (Z.lt_ge_cases A (creatorLicences cfg)) as [|HA];
        [assumption|].
      rewrite (create_item_denied _ item _ _ _ _ HR HA) in HN.
      now contradiction HN.
  - destruct (Z.gtb_spec (creatorLicences cfg) A) as [HA|HA]; cbn.
    + split; [reflexivity | intros _; lia].
    + split; [lia | discriminate].
  - intros ->. split.
    + rewrite (create_item_denied _ item _ _ _ _ HR (Z.le_refl _)). reflexivity.
    + rewrite Z.gtb_ltb, Z.ltb_irrefl. reflexivity.
  - intros HN. apply (create_item_denied _ item _ _ _ _ HR). lia.
  - intros HA millis Hm. cbv zeta.
    rewrite (create_item_granted _ item _ _ _ _ HR HA). cbv zeta.
    rewrite Hm. split.
    + destruct (fault_at env (position w1));
        try (eexists; unfold logged; cbn [snd sent]; reflexivity).
      destruct (fault_at env (S (position w1)));
        try (eexists; unfold logged; cbn [snd sent]; reflexivity);
        (destruct (local_strftime env _);
         [destruct (local_strftime env _)|];
         eexists; cbn [snd sent]; reflexivity).
    + intros F0 F1 dateNow endNow H1 H2. now rewrite F0, F1, H1, H2.
Qed.

(** C2. Once the token is issued and the delete request is served,
    [getRecords] has removed from the table exactly the rows whose [end_] is
    earlier than the table server's [CURRENT_TIMESTAMP], whatever the host
    clock reads; the delete is sent before the query, and when the query is
    served the result is the number of the remaining rows. *)
Theorem getRecords_purges_then_counts cfg url env w :
  fault_at env (position w) = Healthy ->
  fault_at env (S (position w)) = Healthy ->
  let w1 := snd (getRecords cfg url env w) in
  (forall r, In r (table w1) <->
             In r (table w) /\ SFltb (end_ r) (CURRENT_TIMESTAMP env) = false) /\
  sent w1 = (sent w ++ [token_request cfg;
                        purge_request url (issued_token env);
                        count_request url (issued_token env)])%list /\
  (fault_at env (S (S (position w))) = Healthy ->
   fst (getRecords cfg url env w) = Ok (Z.of_nat (List.length (table w1)))) /\
  (forall t, getRecords cfg url (with_clock t env) w = getRecords cfg url env w).
Proof.
  intros F0 F1 w1. subst w1. rewrite !getRecords_spec. cbv zeta.
  cbn [with_clock fault_at CURRENT_TIMESTAMP issued_token].
  rewrite F0, F1.
  split; [|split; [|split]].
  - intros r.
    destruct (fault_at env (S (S (position w)))); cbn [snd table];
      apply purge_In.
  - destruct (fault_at env (S (S (position w)))); reflexivity.
  - intros F2. rewrite F2. reflexivity.
  - intros t. rewrite (getRecords_spec cfg url (with_clock t env)). cbv zeta.
    cbn [with_clock fault_at CURRENT_TIMESTAMP issued_token].
    rewrite F0, F1. reflexivity.
Qed.

(** C4. [POST /check], given the purged count [A] and the capacity [C]:
    when [A < C] the response has [status: success] and [licences] is
    [C - A] (written out in decimal); otherwise it has [status: failed] and
    [licences] is [0]. *)
Theorem check_reports_remaining cfg env w A w1 :
  getRecords cfg (tableURL cfg) env w = (Ok A, w1) ->
  exists d,
    check cfg env w = (Ok d, w1) /\
    (A < creatorLicences cfg ->
     get d "status" = Some (Str "success") /\
     get d "licences" = Some (Str (str (creatorLicences cfg - A)))) /\
    (~ A < creatorLicences cfg ->
     get d "status" = Some (Str "failed") /\
     get d "licences" = Some (Str "0")).
Proof.
  intros HR. rewrite (check_counted _ _ _ _ _ HR).
  eexists. split; [reflexivity|].
  destruct (Z.gtb_spec (creatorLicences cfg) A) as [HA|HA].
  - split; [intros _; split; reflexivity | intros HN; lia].
  - split; [intros HN; lia | intros _; split; reflexivity].
Qed.

(** C5. Whenever [POST /add] answers with [status: success], its message
    reports [capacity - active - 1] remaining licences, [active] being the
    count of the purge-and-count of that same request, and the table has
    gained the one new row. *)
Theorem success_reports_remaining cfg item env w A w1 d w2 :
  getRecords cfg (tableURL cfg) env w = (Ok A, w1) ->
  create_item cfg item env w = (Ok d, w2) ->
  get d "status" = Some (Str "success") ->
  get d "message" =
    Some (Str ("remaining creator licences: "
               ++ str (creatorLicences cfg - A - 1))) /\
  exists lease, table w2 = (table w1 ++ [lease])%list.
Proof.
  intros HR HC HS.
  destruct (Z.lt_ge_cases A (creatorLicences cfg)) as [HA|HA].
  - rewrite (create_item_granted _ item _ _ _ _ HR HA) in HC. cbv zeta in HC.
    destruct (float_of_int _) as [millis| |]; try discriminate.
    destruct (fault_at env (position w1)); try discriminate.
    destruct (fault_at env (S (position w1))); try discriminate;
      try (injection HC as <- <-; discriminate);
      (destruct (local_strftime env _); try discriminate;
       destruct (local_strftime env _); try discriminate;
       injection HC as <- <-; split; [reflexivity|];
       eexists; reflexivity).
  - rewrite (create_item_denied _ item _ _ _ _ HR HA) in HC.
    injection HC as <- <-. discriminate.
Qed.

(** C6. When the count [A] has reached the capacity, [POST /add] answers
    with [status: failed] and leaves the world exactly as purge-and-count
    left it: the only requests sent are the token exchange, the delete and
    the query of [getRecords] (no second token, no insert), and the table is
    the purged table. *)
Theorem denied_request_stops_after_count cfg item env w A w1 :
  getRecords cfg (tableURL cfg) env w = (Ok A, w1) ->
  creatorLicences cfg <= A ->
  create_item cfg item env w = (Ok (no_licences item), w1) /\
  get (no_licences item) "status" = Some (Str "failed") /\
  sent w1 = (sent w ++ [token_request cfg;
                        purge_request (tableURL cfg) (issued_token env);
                        count_request (tableURL cfg) (issued_token env)])%list /\
  table w1 = purge (CURRENT_TIMESTAMP env) (table w).
Proof.
  intros HR HA. split; [exact (create_item_denied _ item _ _ _ _ HR HA)|].
  split; [reflexivity|].
  apply getRecords_Ok in HR as (_ & _ & _ & _ & ->). split; reflexivity.
Qed.

(** ** The insert *)

(** The insert of a granted request whose token was issued. *)
Lemma create_item_insert cfg item env w A w1 millis :
  getRecords cfg (tableURL cfg) env w = (Ok A, w1) ->
  A < creatorLicences cfg ->
  float_of_int (duration cfg * 60000) = Ok millis ->
  fault_at env (position w1) = Healthy ->
  let now := fmul (clock env) (nearest 1000) in
  let lease := new_lease item now (fadd now millis) in
  let req := insert_request cfg (issued_token env) lease in
  let w2 := logged w1 [token_request cfg] in
  create_item cfg item env w =
  match fst (remote env req w2) with
  | Some response =>
      if (status_code response =? 200)%Z then
        let w3 := {| table := (table w1 ++ [lease])%list;
                     sent := (sent w2 ++ [req])%list |} in
        match local_strftime env (fdiv now (nearest 1000)) with
        | Some dateNow =>
            match local_strftime env (fdiv (fadd now millis) (nearest 1000)) with
            | Some endNow => (Ok (add_succeeded cfg item dateNow endNow A), w3)
            | None =>
                (Raise (strftime_raises env
                          (fdiv (fadd now millis) (nearest 1000))), w3)
            end
        | None => (Raise (strftime_raises env (fdiv now (nearest 1000))), w3)
        end
      else
        (match body response with
         | NotJson => Raise JSONDecodeError
         | _ => Ok (add_failed item)
         end, logged w2 [req])
  | None => (Raise ConnectionError, logged w2 [req])
  end.
Proof.
  intros HR HA HM F0 now lease req w2.
  rewrite (create_item_granted _ item _ _ _ _ HR HA). cbv zeta.
  rewrite HM, F0. fold now. fold lease. fold req.
  assert (HP : List.length (sent w2) = S (position w1)).
  { subst w2. unfold logged, position. cbn [sent].
    rewrite length_app. simpl. lia. }
  assert (HL : logged w1 [token_request cfg; req] = logged w2 [req]).
  { subst w2. now rewrite logged_logged. }
  assert (HS : (sent w1 ++ [token_request cfg; req])%list
               = (sent w2 ++ [req])%list).
  { subst w2. unfold logged. cbn [sent]. now rewrite <- app_assoc. }
  unfold remote. rewrite HP, HL, HS.
  destruct (fault_at env (S (position w1))) as [|n k|n k| |].
  - reflexivity.
  - unfold fst, status_code, body.
    replace (400 + Z.of_nat n =? 200)%Z with false
      by (symmetry; apply Z.eqb_neq; lia).
    reflexivity.
  - unfold fst, status_code, body.
    replace (400 + Z.of_nat n =? 200)%Z with false
      by (symmetry; apply Z.eqb_neq; lia).
    reflexivity.
  - reflexivity.
  - reflexivity.
Qed.

(** C7. The failing input of the claim: a granted [POST /add] whose insert
    is answered with a status other than 200 and a body that is not JSON.
    The handler has sent the batch of the single record, and then it raises
    [JSONDecodeError], from the argument of the logging call of the error
    branch, instead of returning the failure response: what the caller gets
    is not determined by the status of the reply. *)
Theorem insert_error_page_raises cfg item env w A w1 millis :
  getRecords cfg (tableURL cfg) env w = (Ok A, w1) ->
  A < creatorLicences cfg ->
  float_of_int (duration cfg * 60000) = Ok millis ->
  fault_at env (position w1) = Healthy ->
  let now := fmul (clock env) (nearest 1000) in
  let lease := {| id := ID item; user_ := item_username item;
                  start := now; end_ := fadd now millis |} in
  let req := AddFeatures (tableURL cfg ++ "/addFeatures") (issued_token env)
               [lease] "" true false in
  let w2 := logged w1 [token_request cfg] in
  forall response, fst (remote env req w2) = Some response ->
    status_code response <> 200 ->
    body response = NotJson ->
    create_item cfg item env w = (Raise JSONDecodeError, logged w2 [req]) /\
    status_of (fst (create_item cfg item env w)) = None.
Proof.
  intros HR HA HM F0 now lease req w2 response Hreply Hstatus Hbody.
  pose proof (create_item_insert _ item _ _ _ _ _ HR HA HM F0) as H.
  cbv zeta in H. fold now in H.
  change (insert_request cfg (issued_token env)
            (new_lease item now (fadd now millis))) with req in H.
  fold w2 in H. rewrite Hreply in H.
  apply Z.eqb_neq in Hstatus. rewrite Hstatus, Hbody in H.
  rewrite H. split; reflexivity.
Qed.


(** ** The purge *)

(** C9. Two purge-and-counts in succession, the second not earlier than
    the first by the server's clock: the first leaves every row with
    [end_ < now] out and every other row in, as often as it was there; after
    the second the table is what one purge at the later time leaves; and
    when the server's time has not moved, the second removes nothing, so the
    surviving rows and their count are those of the first. *)
Theorem purge_exact_and_idempotent cfg url env env' w A1 w1 A2 w2 :
  getRecords cfg url env w = (Ok A1, w1) ->
  getRecords cfg url env' w1 = (Ok A2, w2) ->
  SFleb (CURRENT_TIMESTAMP env) (CURRENT_TIMESTAMP env') = true ->
  (forall r,
     count_occ Lease_eq_dec (table w1) r =
     if SFltb (end_ r) (CURRENT_TIMESTAMP env) then 0%nat
     else count_occ Lease_eq_dec (table w) r) /\
  table w2 = purge (CURRENT_TIMESTAMP env') (table w) /\
  (CURRENT_TIMESTAMP env' = CURRENT_TIMESTAMP env ->
   table w2 = table w1 /\ A2 = A1).
Proof.
  intros H1 H2 Hle.
  apply getRecords_Ok in H1 as (_ & _ & _ & -> & ->).
  apply getRecords_Ok in H2 as (_ & _ & _ & -> & ->).
  cbn [table]. split; [|split].
  - intros r. apply purge_count_occ.
  - now apply purge_purge_later.
  - intros ->. now rewrite purge_idempotent.
Qed.

(** C10. A lease whose [end_] equals the table server's time at the purge
    is not removed by [end_ < CURRENT_TIMESTAMP]: it is among the rows that
    are counted although it is not active, so the count exceeds the number of
    active leases, and when that count reaches the capacity [POST /add] is
    denied. *)
Theorem lease_ending_now_is_counted cfg item env w A w1 r :
  getRecords cfg (tableURL cfg) env w = (Ok A, w1) ->
  In r (table w) ->
  SFeqb (end_ r) (CURRENT_TIMESTAMP env) = true ->
  In r (table w1) /\
  active (CURRENT_TIMESTAMP env) r = false /\
  A = Z.of_nat (List.length (table w1)) /\
  Z.of_nat (List.length (filter (active (CURRENT_TIMESTAMP env)) (table w1))) < A /\
  (creatorLicences cfg <= A ->
   create_item cfg item env w = (Ok (no_licences item), w1)).
Proof.
  intros HR Hin Heq.
  pose proof (create_item_denied cfg item env w A w1 HR) as HD.
  apply getRecords_Ok in HR as (_ & _ & _ & -> & ->). cbn [table].
  assert (Hr : In r (purge (CURRENT_TIMESTAMP env) (table w))).
  { apply purge_In. split; [exact Hin|]. now apply SFeqb_not_ltb. }
  assert (Ha : active (CURRENT_TIMESTAMP env) r = false)
    by now apply SFeqb_not_gtb.
  repeat split; try assumption.
  apply Nat2Z.inj_lt. exact (filter_length_lt _ _ r Hr Ha).
Qed.

(** ** The expiry of a lease *)

(** C3, as the code has it.  [start] is the host clock times 1000 and
    [end_] is [start + duration * 60000], both in binary64.  When [start]
    is [m * 2^e] with a 53-bit [m] and [e <= 0], the duration is not
    negative and the sum stays below [2^(53 + e)], nothing is rounded: as
    numbers, [end_ = start + duration * 60000].  For [e = -12] this is every
    lease that starts and ends between 2004-11-03 and 2039-09-07. *)
Theorem lease_end_exact_within_binade cfg item env w A w1 m e :
  getRecords cfg (tableURL cfg) env w = (Ok A, w1) ->
  A < creatorLicences cfg ->
  fault_at env (position w1) = Healthy ->
  fmul (clock env) (nearest 1000) = S754_finite false m e ->
  2 ^ 52 <= Zpos m < 2 ^ 53 ->
  -53 < e <= 0 ->
  0 <= duration cfg ->
  Zpos m + duration cfg * 60000 * 2 ^ (- e) < 2 ^ 53 ->
  let now := fmul (clock env) (nearest 1000) in
  let lease :=
    new_lease item now (fadd now (nearest (duration cfg * 60000))) in
  sent (snd (create_item cfg item env w))
  = (sent w1 ++ [token_request cfg;
                 insert_request cfg (issued_token env) lease])%list /\
  end_ lease
  = S754_finite false (Z.to_pos (Zpos m + duration cfg * 60000 * 2 ^ (- e))) e /\
  exact_expiry cfg lease.
Proof.
  intros HR HA F0 Hnow Hm He Hd Hsum now lease.
  assert (P : 0 < 2 ^ (- e)) by (apply Z.pow_pos_nonneg; lia).
  assert (HM : float_of_int (duration cfg * 60000)
               = Ok (nearest (duration cfg * 60000))).
  { apply float_of_int_small. change (2 ^ prec) with (2 ^ 53). nia. }
  assert (Hend : fadd now (nearest (duration cfg * 60000))
                 = S754_finite false
                     (Z.to_pos (Zpos m + duration cfg * 60000 * 2 ^ (- e))) e).
  { subst now. rewrite Hnow. apply fadd_nearest_exact; try assumption; lia. }
  split; [|split].
  - rewrite (create_item_granted _ item _ _ _ _ HR HA). cbv zeta.
    rewrite HM, F0. fold now. fold lease.
    destruct (fault_at env (S (position w1))); try reflexivity;
      (destruct (local_strftime env _); [destruct (local_strftime env _)|];
       reflexivity).
  - exact Hend.
  - unfold exact_expiry. subst lease. cbn [new_lease start end_].
    rewrite Hend. subst now. rewrite Hnow. cbn [Q_of_float cond_Zopp].
    apply Q_of_float_sum; lia.
Qed.

(** The request of 2039-09-07 15:43:20.000006 UTC for a lease of 30
    minutes is granted and inserted, but its [start] is not a whole number
    of milliseconds and its [end_] is not [start + 30 * 60000]: the sum
    passes [2^41] and is rounded. *)
Lemma lease_end_rounded_across_binade :
  exists lease,
    table (Scenario.added (Scenario.portal 2 30) Scenario.u1 Scenario.late
             (Scenario.world []))
    = [lease] /\
    get (Scenario.answer (Scenario.portal 2 30) Scenario.u1 Scenario.late
           (Scenario.world [])) "status"
    = Some (Str "success") /\
    ~ whole (start lease) /\
    ~ exact_expiry (Scenario.portal 2 30) lease.
Proof.
  eexists. split; [vm_compute; reflexivity|].
  split; [vm_compute; reflexivity|].
  split.
  - intros [z H]. cbn [start Q_of_float cond_Zopp] in H.
    unfold Qeq in H. cbn in H. lia.
  - unfold exact_expiry. cbn [start end_ Q_of_float cond_Zopp].
    intros H. apply Qeq_bool_iff in H. vm_compute in H. discriminate.
Qed.

(** ** The scenarios, run *)

Import Scenario.

(** Capacity 2 and an empty table: [A = 0 < C], and the lease is granted
    and inserted.  Capacity 2 and two leases that are still running:
    [A = C], and both endpoints report a failure. *)
Lemma admission_below_and_at_capacity :
  (status_of (fst (create_item (portal 2 30) u1 healthy (world [])))
   = Some (Str "success") /\
   table (added (portal 2 30) u1 healthy (world []))
   = [new_lease u1 (nearest ms0) (nearest (ms0 + 1800000))]) /\
  (status_of (fst (create_item (portal 2 30) u3 healthy (world two_active)))
   = Some (Str "failed") /\
   status_of (fst (check (portal 2 30) healthy (world two_active)))
   = Some (Str "failed")).
Proof.
  split.
  - destruct (admission_iff_below_capacity (portal 2 30) u1 healthy
                (world []) 0 (counted (portal 2 30) healthy (world [])))
      as (_ & _ & _ & _ & G).
    + vm_compute. reflexivity.
    + assert (HA : 0 < creatorLicences (portal 2 30)) by (simpl; lia).
      assert (HM : float_of_int (duration (portal 2 30) * 60000)
                   = Ok (nearest (30 * 60000))) by (vm_compute; reflexivity).
      destruct (G HA _ HM) as [_ G'].
      unfold added.
      rewrite (G' eq_refl eq_refl _ _ eq_refl eq_refl).
      split; vm_compute; reflexivity.
  - destruct (admission_iff_below_capacity (portal 2 30) u3 healthy
                (world two_active) 2
                (counted (portal 2 30) healthy (world two_active)))
      as (_ & _ & H & _).
    + vm_compute. reflexivity.
    + apply H. reflexivity.
Defined.

(** The expired lease is purged and the remaining one is counted. *)
Lemma purge_then_count_one_expired :
  table (counted (portal 5 30) healthy (world one_expired))
  = [lease "new" (ms0 + 3600000)] /\
  fst (getRecords (portal 5 30) (tableURL (portal 5 30)) healthy
         (world one_expired))
  = Ok 1.
Proof.
  destruct (getRecords_purges_then_counts (portal 5 30)
              (tableURL (portal 5 30)) healthy (world one_expired))
    as (_ & _ & H & _).
  - reflexivity.
  - reflexivity.
  - split; [vm_compute; reflexivity|].
    rewrite H by reflexivity. vm_compute. reflexivity.
Defined.

(** A lease of 30 minutes asked for at 1700000000.250003: the start has a
    fraction of a millisecond, the end is exact. *)
Lemma lease_end_exact_in_2023 :
  exact_expiry (portal 2 30)
    (new_lease u1 (fmul (clock fractional) (nearest 1000))
       (fadd (fmul (clock fractional) (nearest 1000)) (nearest (30 * 60000)))).
Proof.
  destruct (lease_end_exact_within_binade (portal 2 30) u1 fractional
              (world []) 0 (counted (portal 2 30) fractional (world []))
              6963200001024013 (-12))
    as (_ & _ & H).
  - vm_compute. reflexivity.
  - reflexivity.
  - reflexivity.
  - vm_compute. reflexivity.
  - lia.
  - lia.
  - simpl. lia.
  - simpl. lia.
  - exact H.
Defined.

(** Capacity 5, one expired lease and one running: four licences left. *)
Lemma check_reports_four :
  exists d,
    check (portal 5 30) healthy (world one_expired)
    = (Ok d, counted (portal 5 30) healthy (world one_expired)) /\
    get d "status" = Some (Str "success") /\
    get d "licences" = Some (Str "4").
Proof.
  destruct (check_reports_remaining (portal 5 30) healthy (world one_expired) 1
              (counted (portal 5 30) healthy (world one_expired)))
    as (d & Hc & Hlt & _).
  - vm_compute. reflexivity.
  - exists d. split; [exact Hc|]. apply Hlt. reflexivity.
Defined.

(** Capacity 2 and an empty table: the lease is granted and one licence
    remains. *)
Lemma first_lease_leaves_one :
  get (answer (portal 2 30) u1 healthy (world [])) "message"
  = Some (Str "remaining creator licences: 1").
Proof.
  destruct (success_reports_remaining (portal 2 30) u1 healthy (world []) 0
              (counted (portal 2 30) healthy (world []))
              (answer (portal 2 30) u1 healthy (world []))
              (added (portal 2 30) u1 healthy (world [])))
    as (H & _).
  - vm_compute. reflexivity.
  - vm_compute. reflexivity.
  - vm_compute. reflexivity.
  - exact H.
Defined.

(** Capacity 2 and two running leases: the third request is denied after
    three remote calls, none of them an insert. *)
Lemma third_lease_denied :
  create_item (portal 2 30) u3 healthy (world two_active)
  = (Ok (no_licences u3),
     {| table := two_active;
        sent := [token_request (portal 2 30);
                 purge_request (tableURL (portal 2 30)) "tok";
                 count_request (tableURL (portal 2 30)) "tok"] |}).
Proof.
  destruct (denied_request_stops_after_count (portal 2 30) u3 healthy
              (world two_active) 2
              {| table := two_active;
                 sent := [token_request (portal 2 30);
                          purge_request (tableURL (portal 2 30)) "tok";
                          count_request (tableURL (portal 2 30)) "tok"] |})
    as (H & _).
  - vm_compute. reflexivity.
  - simpl. lia.
  - exact H.
Defined.

(** The insert is answered with status 502 and an HTML page: the handler
    raises, the batch having been sent. *)
Lemma error_page_on_insert :
  create_item (portal 2 30) u1 (Faults.error_page_at 4) (world [])
  = (Raise JSONDecodeError,
     {| table := [];
        sent := [token_request (portal 2 30);
                 purge_request (tableURL (portal 2 30)) "tok";
                 count_request (tableURL (portal 2 30)) "tok";
                 token_request (portal 2 30);
                 AddFeatures (tableURL (portal 2 30) ++ "/addFeatures") "tok"
                   [{| id := "u1"; user_ := Some "ann";
                       start := nearest ms0; end_ := nearest (ms0 + 1800000) |}]
                   "" true false] |}).
Proof.
  destruct (insert_error_page_raises (portal 2 30) u1 (Faults.error_page_at 4)
              (world []) 0
              (counted (portal 2 30) (Faults.error_page_at 4) (world []))
              (nearest (30 * 60000)))
    with (response := {| status_code := 502; body := NotJson |})
    as (H & _).
  - vm_compute. reflexivity.
  - reflexivity.
  - vm_compute. reflexivity.
  - reflexivity.
  - vm_compute. reflexivity.
  - simpl. lia.
  - reflexivity.
  - rewrite H. vm_compute. reflexivity.
Defined.



(** Purging the table with the expired lease, and again a second later. *)
Lemma purge_twice_one_expired :
  table (counted (portal 5 30) later
           (counted (portal 5 30) healthy (world one_expired)))
  = purge (CURRENT_TIMESTAMP later) one_expired.
Proof.
  destruct (purge_exact_and_idempotent (portal 5 30) (tableURL (portal 5 30))
              healthy later (world one_expired)
              1 (counted (portal 5 30) healthy (world one_expired))
              1 (counted (portal 5 30) later
                   (counted (portal 5 30) healthy (world one_expired))))
    as (_ & H & _).
  - vm_compute. reflexivity.
  - vm_compute. reflexivity.
  - vm_compute. reflexivity.
  - exact H.
Defined.

(** Capacity 1 and one lease that ends at the instant of the purge: no
    lease is active, yet the request is denied. *)
Lemma lease_ending_now_denies :
  filter (active (CURRENT_TIMESTAMP healthy))
    (table (counted (portal 1 30) healthy (world ending_now))) = [] /\
  create_item (portal 1 30) u1 healthy (world ending_now)
  = (Ok (no_licences u1), counted (portal 1 30) healthy (world ending_now)).
Proof.
  destruct (lease_ending_now_is_counted (portal 1 30) u1 healthy
              (world ending_now) 1
              (counted (portal 1 30) healthy (world ending_now))
              (lease "edge" ms0))
    as (_ & _ & _ & _ & H).
  - vm_compute. reflexivity.
  - left. reflexivity.
  - vm_compute. reflexivity.
  - split; [vm_compute; reflexivity|]. apply H. simpl. lia.
Defined.

(** ** Beyond the count: failures, frames and sequences of requests *)

Lemma bind_Raise {A B} (m : M A) (k : A -> M B) env w e w' :
  m env w = (Raise e, w') -> bind m k env w = (Raise e, w').
Proof. intros H. unfold bind. now rewrite H. Qed.

Lemma bind_SysExit {A B} (m : M A) (k : A -> M B) env w w' :
  m env w = (SysExit, w') -> bind m k env w = (SysExit, w').
Proof. intros H. unfold bind. now rewrite H. Qed.

Lemma inserts_app l l' : inserts (l ++ l')%list = (inserts l + inserts l')%nat.
Proof. unfold inserts. now rewrite filter_app, length_app. Qed.

Lemma inserts_count_requests cfg url tok :
  inserts [token_request cfg; purge_request url tok; count_request url tok]
  = 0%nat.
Proof. reflexivity. Qed.

Lemma inserts_token_request cfg : inserts [token_request cfg] = 0%nat.
Proof. reflexivity. Qed.

Lemma purge_length now rows :
  (List.length (purge now rows) <= List.length rows)%nat.
Proof. unfold purge, delete_where. apply filter_length_le. Qed.

Lemma purge_incl now rows r : In r (purge now rows) -> In r rows.
Proof. intros H. now apply purge_In in H. Qed.

(** Where [getRecords] leaves the world, whatever its outcome. *)
Lemma getRecords_world cfg url env w :
  exists rows reqs,
    snd (getRecords cfg url env w)
    = {| table := rows; sent := (sent w ++ reqs)%list |} /\
    (rows = table w \/ rows = purge (CURRENT_TIMESTAMP env) (table w)) /\
    inserts reqs = 0%nat /\
    (1 <= List.length reqs <= 3)%nat.
Proof.
  rewrite getRecords_spec. cbv zeta. unfold logged.
  destruct (fault_at env (position w));
    try destruct (fault_at env (S (position w)));
    try destruct (fault_at env (S (S (position w))));
    cbn [snd]; eexists; eexists;
    (split; [reflexivity|]);
    (split; [(left; reflexivity) || (right; reflexivity)|]);
    (split; [reflexivity | simpl; lia]).
Qed.

Lemma create_item_count_raises cfg item env w e w1 :
  getRecords cfg (tableURL cfg) env w = (Raise e, w1) ->
  create_item cfg item env w = (Raise e, w1).
Proof. intros H. unfold create_item. now apply bind_Raise. Qed.

Lemma create_item_count_exits cfg item env w w1 :
  getRecords cfg (tableURL cfg) env w = (SysExit, w1) ->
  create_item cfg item env w = (SysExit, w1).
Proof. intros H. unfold create_item. now apply bind_SysExit. Qed.

Lemma check_count_raises cfg env w e w1 :
  getRecords cfg (tableURL cfg) env w = (Raise e, w1) ->
  check cfg env w = (SysExit, w1).
Proof.
  intros H. unfold check. apply bind_SysExit.
  unfold try_except. now rewrite H.
Qed.

Lemma check_count_exits cfg env w w1 :
  getRecords cfg (tableURL cfg) env w = (SysExit, w1) ->
  check cfg env w = (SysExit, w1).
Proof.
  intros H. unfold check. apply bind_SysExit.
  unfold try_except. now rewrite H.
Qed.

(** [check] leaves the world where [getRecords] leaves it. *)
Lemma check_world cfg env w :
  snd (check cfg env w) = snd (getRecords cfg (tableURL cfg) env w).
Proof.
  destruct (getRecords cfg (tableURL cfg) env w) as [[A|e|] w1] eqn:HR.
  - now rewrite (check_counted _ _ _ _ _ HR).
  - now rewrite (check_count_raises _ _ _ _ _ HR).
  - now rewrite (check_count_exits _ _ _ _ HR).
Qed.

(** A granted request does not answer with the capacity denial. *)
Lemma granted_not_denied cfg item env w A w1 :
  getRecords cfg (tableURL cfg) env w = (Ok A, w1) ->
  A < creatorLicences cfg ->
  fst (create_item cfg item env w) <> Ok (no_licences item).
Proof.
  intros HR HA. rewrite (create_item_granted _ item _ _ _ _ HR HA). cbv zeta.
  destruct (float_of_int _); try discriminate.
  destruct (fault_at env (position w1)); try discriminate.
  destruct (fault_at env (S (position w1))); try discriminate;
    (destruct (local_strftime env _); try discriminate;
     destruct (local_strftime env _); discriminate).
Qed.

(** Where [create_item] leaves the world: without an answer the table is
    as it was or purged, with [status: failed] it is purged, and only
    otherwise it is the purged table with the new lease at its end. *)
Lemma create_item_world cfg item env w :
  exists rows reqs,
    snd (create_item cfg item env w)
    = {| table := rows; sent := (sent w ++ reqs)%list |} /\
    (inserts reqs <= 1)%nat /\
    (((forall d, fst (create_item cfg item env w) <> Ok d) /\
      (rows = table w \/ rows = purge (CURRENT_TIMESTAMP env) (table w))) \/
     (status_of (fst (create_item cfg item env w)) = Some (Str "failed") /\
      rows = purge (CURRENT_TIMESTAMP env) (table w)) \/
     (status_of (fst (create_item cfg item env w)) <> Some (Str "failed") /\
      exists end',
        rows = (purge (CURRENT_TIMESTAMP env) (table w)
                ++ [new_lease item (fmul (clock env) (nearest 1000)) end'])%list)).
Proof.
  destruct (getRecords cfg (tableURL cfg) env w) as [[A|e|] w1] eqn:HR.
  - pose proof HR as HR'.
    apply getRecords_Ok in HR' as (_ & _ & _ & _ & Hw1).
    destruct (Z.lt_ge_cases A (creatorLicences cfg)) as [HA|HA].
    + rewrite (create_item_granted _ item _ _ _ _ HR HA). cbv zeta.
      subst w1. unfold logged. cbn [table sent].
      destruct (float_of_int _) as [millis| |].
      * destruct (fault_at env _); [destruct (fault_at env _)| | | |];
          try (destruct (local_strftime env _);
               [destruct (local_strftime env _)|]);
          cbn [fst snd]; rewrite <- ?app_assoc;
          eexists; eexists; (split; [reflexivity|]);
          (split; [vm_compute; lia|]);
          first [ left; split; [discriminate | now right]
                | right; left; split; reflexivity
                | right; right; split; [discriminate | eexists; reflexivity] ].
      * cbn [fst snd]. eexists; eexists. split; [reflexivity|].
        split; [vm_compute; lia|]. left. split; [discriminate | now right].
      * cbn [fst snd]. eexists; eexists. split; [reflexivity|].
        split; [vm_compute; lia|]. left. split; [discriminate | now right].
    + rewrite (create_item_denied _ item _ _ _ _ HR HA). subst w1.
      cbn [fst snd]. eexists; eexists. split; [reflexivity|].
      split; [vm_compute; lia|]. right; left. split; reflexivity.
  - rewrite (create_item_count_raises _ item _ _ _ _ HR).
    destruct (getRecords_world cfg (tableURL cfg) env w)
      as (rows & reqs & Hw & Hrows & Hins & _).
    rewrite HR in Hw. cbn [fst snd] in *. rewrite Hw.
    eexists; eexists. split; [reflexivity|].
    split; [lia|]. left. split; [discriminate | exact Hrows].
  - rewrite (create_item_count_exits _ item _ _ _ HR).
    destruct (getRecords_world cfg (tableURL cfg) env w)
      as (rows & reqs & Hw & Hrows & Hins & _).
    rewrite HR in Hw. cbn [fst snd] in *. rewrite Hw.
    eexists; eexists. split; [reflexivity|].
    split; [lia|]. left. split; [discriminate | exact Hrows].
Qed.

(** X1. [getRecords] ends the process exactly when the token was issued
    and the delete was refused with a reply whose body is JSON; it has then
    sent the token exchange and the delete, no query, and the table is as it
    was.  When the body of the refusal is not JSON, the argument of the
    logging call raises [JSONDecodeError] before [sys.exit()] is reached. *)
Theorem getRecords_exits_iff_delete_refused cfg url env w :
  (fst (getRecords cfg url env w) = SysExit <->
   fault_at env (position w) = Healthy /\
   exists n k, fault_at env (S (position w)) = HttpError n k) /\
  (fst (getRecords cfg url env w) = SysExit ->
   snd (getRecords cfg url env w)
   = logged w [token_request cfg; purge_request url (issued_token env)]) /\
  (fault_at env (position w) = Healthy ->
   forall n k, fault_at env (S (position w)) = HttpErrorPage n k ->
   getRecords cfg url env w
   = (Raise JSONDecodeError,
      logged w [token_request cfg; purge_request url (issued_token env)])).
Proof.
  rewrite getRecords_spec. cbv zeta.
  split; [|split].
  - destruct (fault_at env (position w)) as [|n k|n k| |];
      try (split; [discriminate | intros [H _]; discriminate]).
    destruct (fault_at env (S (position w))) as [|n k|n k| |];
      try (split; [|intros [_ [n' [k' H']]]; discriminate];
           destruct (fault_at env (S (S (position w)))); discriminate);
      try (split; [discriminate | intros [_ [n' [k' H']]]; discriminate]).
    split; [|reflexivity]. intros _. split; [reflexivity|]. now exists n, k.
  - destruct (fault_at env (position w)); try discriminate.
    destruct (fault_at env (S (position w)));
      try destruct (fault_at env (S (S (position w))));
      try discriminate; reflexivity.
  - intros -> n k ->. reflexivity.
Qed.

(** X2. Whatever its outcome, [getRecords] only purges: the table
    afterwards is the table as it was or its purge, no row is new, no row
    that has not expired is lost, and the one to three requests it has sent
    hold no insert. *)
Theorem getRecords_only_purges cfg url env w :
  let w' := snd (getRecords cfg url env w) in
  (table w' = table w \/
   table w' = purge (CURRENT_TIMESTAMP env) (table w)) /\
  (forall r, In r (table w') -> In r (table w)) /\
  (forall r, In r (table w) -> expired (CURRENT_TIMESTAMP env) r = false ->
             In r (table w')) /\
  exists reqs,
    sent w' = (sent w ++ reqs)%list /\ inserts reqs = 0%nat /\
    (1 <= List.length reqs <= 3)%nat.
Proof.
  intros w'. subst w'.
  destruct (getRecords_world cfg url env w)
    as (rows & reqs & -> & Hrows & Hins & Hlen).
  cbn [table sent]. split; [exact Hrows|]. split; [|split].
  - intros r Hr. destruct Hrows as [->| ->];
      [assumption | now apply purge_incl in Hr].
  - intros r Hr He. destruct Hrows as [->| ->];
      [assumption | now apply purge_In].
  - now exists reqs.
Qed.

(** X3. [POST /check] has the effect of [getRecords] on the world, purge
    included, and never raises: where the count fails, by an exception or
    by the refused delete, it ends the process. *)
Theorem check_exits_where_count_fails cfg env w :
  snd (check cfg env w) = snd (getRecords cfg (tableURL cfg) env w) /\
  (forall e, fst (check cfg env w) <> Raise e) /\
  (fst (check cfg env w) = SysExit <->
   forall A, fst (getRecords cfg (tableURL cfg) env w) <> Ok A).
Proof.
  destruct (getRecords cfg (tableURL cfg) env w) as [[A|e|] w1] eqn:HR.
  - rewrite (check_counted _ _ _ _ _ HR). cbn [fst snd].
    split; [reflexivity|]. split; [discriminate|].
    split; [discriminate | intros H; now contradiction (H A)].
  - rewrite (check_count_raises _ _ _ _ _ HR). cbn [fst snd].
    split; [reflexivity|]. split; [discriminate|].
    split; [discriminate | reflexivity].
  - rewrite (check_count_exits _ _ _ _ HR). cbn [fst snd].
    split; [reflexivity|]. split; [discriminate|].
    split; [discriminate | reflexivity].
Qed.

(** X4. An exception in the count is handled differently by the two
    endpoints: [POST /add] lets it through as it is, [POST /check] turns it
    into the end of the process.  Both leave the world where the count left
    it. *)
Theorem count_exception_raises_in_add_exits_in_check cfg item env w e w1 :
  getRecords cfg (tableURL cfg) env w = (Raise e, w1) ->
  create_item cfg item env w = (Raise e, w1) /\
  check cfg env w = (SysExit, w1).
Proof.
  intros HR. split.
  - exact (create_item_count_raises _ item _ _ _ _ HR).
  - exact (check_count_raises _ _ _ _ _ HR).
Qed.

(** X5. When the token exchange of a granted [POST /add] fails, by an
    error reply, by a reply that is not JSON or by no reply, the process
    ends: the request is logged,
    no insert is sent, and the table is the purged table. *)
Theorem add_exits_when_token_fails cfg item env w A w1 millis :
  getRecords cfg (tableURL cfg) env w = (Ok A, w1) ->
  A < creatorLicences cfg ->
  float_of_int (duration cfg * 60000) = Ok millis ->
  fault_at env (position w1) <> Healthy ->
  create_item cfg item env w = (SysExit, logged w1 [token_request cfg]) /\
  table w1 = purge (CURRENT_TIMESTAMP env) (table w) /\
  inserts (sent (logged w1 [token_request cfg])) = inserts (sent w).
Proof.
  intros HR HA HM HF.
  rewrite (create_item_granted _ item _ _ _ _ HR HA). cbv zeta. rewrite HM.
  apply getRecords_Ok in HR as (_ & _ & _ & _ & ->).
  destruct (fault_at env _); [now contradiction HF| | | |];
    (split; [reflexivity|]); (split; [reflexivity|]);
    unfold logged; cbn [sent];
    rewrite !inserts_app, inserts_count_requests, inserts_token_request; lia.
Qed.

(** X6. Whatever its outcome, [POST /add] sends at most one insert and
    writes at most one row: every row afterwards was there before or is the
    lease of this request, every row that had not expired is still there,
    and when the answer has [status: failed] the table is exactly the purged
    table. *)
Theorem add_writes_at_most_one_row cfg item env w :
  let w' := snd (create_item cfg item env w) in
  (forall r, In r (table w') ->
     In r (table w) \/
     (id r = ID item /\ user_ r = item_username item /\
      start r = fmul (clock env) (nearest 1000))) /\
  (forall r, In r (table w) -> expired (CURRENT_TIMESTAMP env) r = false ->
             In r (table w')) /\
  (List.length (table w') <= S (List.length (table w)))%nat /\
  (inserts (sent w') <= S (inserts (sent w)))%nat /\
  (status_of (fst (create_item cfg item env w)) = Some (Str "failed") ->
   table w' = purge (CURRENT_TIMESTAMP env) (table w)).
Proof.
  intros w'. subst w'.
  destruct (create_item_world cfg item env w)
    as (rows & reqs & -> & Hins & Hcases).
  cbn [table sent]. rewrite inserts_app.
  pose proof (purge_length (CURRENT_TIMESTAMP env) (table w)) as HL.
  destruct Hcases as [[Hno [->| ->]]|[[Hst ->]|[Hst [end' ->]]]].
  - repeat split; auto; try lia.
    intros H. destruct (fst (create_item cfg item env w)) as [d| |];
      [now contradiction (Hno d) | discriminate | discriminate].
  - repeat split; try lia.
    + intros r Hr. left. now apply purge_incl in Hr.
    + intros r Hr He. now apply purge_In.
  - repeat split; try lia.
    + intros r Hr. left. now apply purge_incl in Hr.
    + intros r Hr He. now apply purge_In.
  - repeat split; try lia.
    + intros r Hr. apply in_app_or in Hr as [Hr|[<-|[]]].
      * left. now apply purge_incl in Hr.
      * right. repeat split.
    + intros r Hr He. apply in_or_app. left. now apply purge_In.
    + rewrite length_app. simpl. lia.
    + intros H. now contradiction Hst.
Qed.

(** X7. Requests served one after another never take the table beyond the
    capacity: if it holds at most [creatorLicences] rows, so it does after
    any number of [POST /add] and [POST /check] requests, whatever fails on
    the way. *)
Theorem capacity_never_exceeded cfg w w' :
  served cfg w w' ->
  Z.of_nat (List.length (table w)) <= creatorLicences cfg ->
  Z.of_nat (List.length (table w')) <= creatorLicences cfg.
Proof.
  intros Hs Hw. induction Hs as [|w' item env _ IH|w' env _ IH].
  - exact Hw.
  - pose proof (purge_length (CURRENT_TIMESTAMP env) (table w')) as HL.
    destruct (getRecords cfg (tableURL cfg) env w') as [[A|e|] w1] eqn:HR.
    + pose proof HR as HR'.
      apply getRecords_Ok in HR' as (_ & _ & _ & HA & Hw1).
      destruct (create_item_world cfg item env w')
        as (rows & reqs & -> & _ & Hcases).
      cbn [table].
      destruct Hcases as [[_ [->| ->]]|[[_ ->]|[Hst [end' ->]]]]; try lia.
      rewrite length_app. simpl.
      destruct (Z.lt_ge_cases A (creatorLicences cfg)) as [Hlt|Hge]; [lia|].
      rewrite (create_item_denied _ item _ _ _ _ HR Hge) in Hst.
      now contradiction Hst.
    + rewrite (create_item_count_raises _ item _ _ _ _ HR). cbn [snd].
      destruct (getRecords_world cfg (tableURL cfg) env w')
        as (rows & reqs & Hw1 & [->| ->] & _).
      * rewrite HR in Hw1. cbn [snd] in Hw1. subst w1. exact IH.
      * rewrite HR in Hw1. cbn [snd] in Hw1. subst w1. cbn [table]. lia.
    + rewrite (create_item_count_exits _ item _ _ _ HR). cbn [snd].
      destruct (getRecords_world cfg (tableURL cfg) env w')
        as (rows & reqs & Hw1 & [->| ->] & _).
      * rewrite HR in Hw1. cbn [snd] in Hw1. subst w1. exact IH.
      * rewrite HR in Hw1. cbn [snd] in Hw1. subst w1. cbn [table]. lia.
  - pose proof (purge_length (CURRENT_TIMESTAMP env) (table w')) as HL.
    rewrite check_world.
    destruct (getRecords_world cfg (tableURL cfg) env w')
      as (rows & reqs & -> & [->| ->] & _); cbn [table]; lia.
Qed.

(** X8. A capacity of zero, the value start-up leaves when the portal has
    no creator user type, or a negative one denies everything: every
    [POST /add] and every [POST /check] whose count succeeds reports a
    failure, and nothing is inserted. *)
Theorem no_capacity_denies_all cfg item env w A w1 :
  creatorLicences cfg <= 0 ->
  getRecords cfg (tableURL cfg) env w = (Ok A, w1) ->
  create_item cfg item env w = (Ok (no_licences item), w1) /\
  check cfg env w = (Ok licences_exhausted, w1).
Proof.
  intros HC HR. pose proof HR as HR'.
  apply getRecords_Ok in HR' as (_ & _ & _ & HA & _).
  split.
  - apply (create_item_denied _ item _ _ _ _ HR). lia.
  - rewrite (check_counted _ _ _ _ _ HR).
    replace (creatorLicences cfg >? A) with false
      by (symmetry; rewrite Z.gtb_ltb; apply Z.ltb_ge; lia).
    reflexivity.
Qed.

(** X9. After a [POST /check] that reports success, the next [POST /add]
    on the table as the check left it is not denied for capacity, at
    whatever time it comes: its count is below the capacity. *)
Theorem add_after_successful_check cfg item env env' w d w1 A' w2 :
  check cfg env w = (Ok d, w1) ->
  get d "status" = Some (Str "success") ->
  getRecords cfg (tableURL cfg) env' w1 = (Ok A', w2) ->
  A' < creatorLicences cfg /\
  fst (create_item cfg item env' w1) <> Ok (no_licences item).
Proof.
  intros HC HS HR'.
  destruct (getRecords cfg (tableURL cfg) env w) as [[A|e|] w0] eqn:HR.
  - rewrite (check_counted _ _ _ _ _ HR) in HC. injection HC as <- <-.
    assert (HA : A < creatorLicences cfg).
    { destruct (Z.gtb_spec (creatorLicences cfg) A) as [|]; [lia|].
      discriminate. }
    apply getRecords_Ok in HR as (_ & _ & _ & -> & ->).
    pose proof HR' as HR''.
    apply getRecords_Ok in HR'' as (_ & _ & _ & HA' & _).
    cbn [table] in HA'.
    pose proof (purge_length (CURRENT_TIMESTAMP env')
                  (purge (CURRENT_TIMESTAMP env) (table w))) as HL.
    assert (A' < creatorLicences cfg) by lia.
    split; [assumption|]. now apply (granted_not_denied _ item _ _ _ _ HR').
  - rewrite (check_count_raises _ _ _ _ _ HR) in HC. discriminate.
  - rewrite (check_count_exits _ _ _ _ HR) in HC. discriminate.
Qed.

(** X10. After a [POST /add] that succeeds on a count of [A], the next
    count is at most [A + 1]: the number of remaining licences the success
    message reports is a lower bound of what the next [POST /check] reports,
    and when it is positive that check reports success. *)
Theorem check_after_successful_add cfg item env env' w A w1 d w2 A' w3 :
  getRecords cfg (tableURL cfg) env w = (Ok A, w1) ->
  create_item cfg item env w = (Ok d, w2) ->
  get d "status" = Some (Str "success") ->
  getRecords cfg (tableURL cfg) env' w2 = (Ok A', w3) ->
  creatorLicences cfg - A - 1 <= creatorLicences cfg - A' /\
  (0 < creatorLicences cfg - A - 1 ->
   check cfg env' w2 = (Ok (licences_available (creatorLicences cfg - A')), w3)).
Proof.
  intros HR HC HS HR'.
  assert (HT : Z.of_nat (List.length (table w2)) = A + 1).
  { destruct (create_item_world cfg item env w)
      as (rows & reqs & Hw & _ & Hcases).
    rewrite HC in Hw, Hcases. cbn [fst snd status_of] in Hw, Hcases.
    apply getRecords_Ok in HR as (_ & _ & _ & -> & _).
    destruct Hcases as [[Hno _]|[[Hst _]|[_ [end' ->]]]].
    - now contradiction (Hno d).
    - congruence.
    - rewrite Hw. cbn [table]. rewrite length_app. simpl. lia. }
  pose proof HR' as HR''.
  apply getRecords_Ok in HR'' as (_ & _ & _ & HA' & _).
  pose proof (purge_length (CURRENT_TIMESTAMP env') (table w2)) as HL.
  split; [lia|].
  intros Hpos. rewrite (check_counted _ _ _ _ _ HR').
  replace (creatorLicences cfg >? A') with true
    by (symmetry; rewrite Z.gtb_ltb; apply Z.ltb_lt; lia).
  reflexivity.
Qed.

Lemma getRecords_same_count cfg url env w w' :
  position w = position w' ->
  List.length (purge (CURRENT_TIMESTAMP env) (table w))
  = List.length (purge (CURRENT_TIMESTAMP env) (table w')) ->
  fst (getRecords cfg url env w) = fst (getRecords cfg url env w') /\
  position (snd (getRecords cfg url env w))
  = position (snd (getRecords cfg url env w')).
Proof.
  intros HP HL. rewrite !getRecords_spec. cbv zeta. rewrite <- HP.
  destruct (fault_at env (position w));
    try destruct (fault_at env (S (position w)));
    try destruct (fault_at env (S (S (position w))));
    cbn [fst snd]; rewrite ?HL; (split; [reflexivity|]);
    unfold position, logged in *; cbn [sent]; rewrite !length_app;
    now rewrite HP.
Qed.

(** X11. [POST /add] does not look at the rows it counts: on two tables
    whose purges have the same number of rows the answer is the same, so a
    request whose ID is already in the table is served like any other. *)
Theorem add_ignores_existing_ids cfg item env w w' :
  position w = position w' ->
  List.length (purge (CURRENT_TIMESTAMP env) (table w))
  = List.length (purge (CURRENT_TIMESTAMP env) (table w')) ->
  fst (create_item cfg item env w) = fst (create_item cfg item env w').
Proof.
  intros HP HL.
  destruct (getRecords_same_count cfg (tableURL cfg) env w w' HP HL)
    as [Hfst Hpos].
  destruct (getRecords cfg (tableURL cfg) env w) as [[A|e|] w1] eqn:HR;
    destruct (getRecords cfg (tableURL cfg) env w') as [o' w1'] eqn:HR';
    cbn [fst snd] in Hfst, Hpos; subst o'.
  - destruct (Z.lt_ge_cases A (creatorLicences cfg)) as [HA|HA].
    + rewrite (create_item_granted _ item _ _ _ _ HR HA),
              (create_item_granted _ item _ _ _ _ HR' HA).
      cbv zeta. rewrite <- Hpos.
      destruct (float_of_int _); try reflexivity.
      destruct (fault_at env (position w1)); try reflexivity.
      destruct (fault_at env (S (position w1))); try reflexivity;
        (destruct (local_strftime env _); try reflexivity;
         destruct (local_strftime env _); reflexivity).
    + now rewrite (create_item_denied _ item _ _ _ _ HR HA),
                  (create_item_denied _ item _ _ _ _ HR' HA).
  - now rewrite (create_item_count_raises _ item _ _ _ _ HR),
                (create_item_count_raises _ item _ _ _ _ HR').
  - now rewrite (create_item_count_exits _ item _ _ _ HR),
                (create_item_count_exits _ item _ _ _ HR').
Qed.

Lemma SFltb_asym (x y : float) : SFltb x y = true -> SFltb y x = false.
Proof.
  unfold SFltb, SFcompare.
  destruct x as [[|]|[|]| |[|] mx ex], y as [[|]|[|]| |[|] my ey];
    try discriminate; try reflexivity;
    fold (Pos.compare mx my); fold (Pos.compare my mx);
    destruct (Z.compare_spec ex ey); try discriminate;
    destruct (Z.compare_spec ey ex); try lia; try reflexivity;
    destruct (Pos.compare_spec mx my); try discriminate;
    destruct (Pos.compare_spec my mx); try lia; try reflexivity.
Qed.

(** X12. Under the conditions of the exact sum and with a positive
    duration, the lease of a granted request ends after it starts: it is
    active at its own start, and no purge at a server time up to its start
    removes it. *)
Theorem fresh_lease_is_active cfg item env m e :
  fmul (clock env) (nearest 1000) = S754_finite false m e ->
  2 ^ 52 <= Zpos m < 2 ^ 53 ->
  -53 < e <= 0 ->
  0 < duration cfg ->
  Zpos m + duration cfg * 60000 * 2 ^ (- e) < 2 ^ 53 ->
  let now := fmul (clock env) (nearest 1000) in
  let lease :=
    new_lease item now (fadd now (nearest (duration cfg * 60000))) in
  active now lease = true /\
  forall t, SFleb t now = true -> expired t lease = false.
Proof.
  intros Hnow Hm He Hd Hsum now lease.
  assert (P : 0 < 2 ^ (- e)) by (apply Z.pow_pos_nonneg; lia).
  assert (Hact : active now lease = true).
  { unfold active. subst lease now. cbn [new_lease end_]. rewrite Hnow.
    rewrite fadd_nearest_exact by (try assumption; lia).
    unfold SFltb, SFcompare. rewrite Z.compare_refl.
    fold (Pos.compare m (Z.to_pos (Zpos m + duration cfg * 60000 * 2 ^ (- e)))).
    replace (m ?= Z.to_pos (Zpos m + duration cfg * 60000 * 2 ^ (- e)))%positive
      with Lt; [reflexivity|].
    symmetry. apply Pos.compare_lt_iff. nia. }
  split; [exact Hact|].
  intros t Ht. unfold expired.
  destruct (SFltb (end_ lease) t) eqn:E; [|reflexivity].
  pose proof (SFltb_leb_trans _ _ _ E Ht) as Hlt.
  apply SFltb_asym in Hlt. unfold active in Hact. congruence.
Qed.

(** X13. The scan of the user types at start-up, past user types that are
    not the creator's: at the end of the list the capacity is 0; the first
    user type with the id [creatorUT] decides, whatever follows it; and a
    user type without an id ends the process. *)
Theorem creator_licences_scan int_of_str before :
  Forall Startup.other before ->
  Startup.creator_licences int_of_str before = Some 0 /\
  (forall creator after,
     Startup.getitem creator "id" = Some (Startup.JStr "creatorUT") ->
     Startup.creator_licences int_of_str (before ++ creator :: after)%list
     = match Startup.getitem creator "maximumRegisteredMembers" with
       | Some n => Startup.int int_of_str n
       | None => None
       end) /\
  (forall bad after,
     Startup.getitem bad "id" = None ->
     Startup.creator_licences int_of_str (before ++ bad :: after)%list = None).
Proof.
  induction 1 as [|u before (v & Hid & Hne) _ (IH0 & IH1 & IH2)].
  - split; [reflexivity|]. split.
    + intros creator after Hid. cbn. rewrite Hid. reflexivity.
    + intros bad after Hid. cbn. now rewrite Hid.
  - cbn [app Startup.creator_licences]. rewrite Hid, Hne.
    split; [exact IH0|]. split; [exact IH1 | exact IH2].
Qed.

(** X14. The schema is generated once: after a call of [custom_openapi]
    that returns a schema that is not empty, the next call returns that
    schema and leaves the application as it is, without generating. *)
Theorem custom_openapi_caches (Schema : Type) (is_empty : Schema -> bool)
    (get_openapi : string -> string -> string -> list string -> Schema)
    (app : OpenApi.App Schema) :
  let r := OpenApi.custom_openapi Schema is_empty get_openapi app in
  is_empty (fst r) = false ->
  OpenApi.custom_openapi Schema is_empty get_openapi (snd r) = r /\
  (OpenApi.generated Schema (snd r) <= S (OpenApi.generated Schema app))%nat.
Proof.
  intros r. subst r. unfold OpenApi.custom_openapi.
  destruct (OpenApi.openapi_schema Schema app) as [schema|] eqn:Hs.
  - destruct (is_empty schema) eqn:He; cbn [fst snd OpenApi.openapi_schema
      OpenApi.generated OpenApi.routes].
    + intros Hne. rewrite Hne. split; [reflexivity | lia].
    + intros _. rewrite Hs, He. split; [reflexivity | lia].
  - cbn [fst snd OpenApi.openapi_schema OpenApi.generated OpenApi.routes].
    intros Hne. rewrite Hne. split; [reflexivity | lia].
Qed.

(** ** The downloader *)

Lemma getitem_setitem_same d k v :
  Download.getitem (Download.setitem d k v) k = Some v.
Proof.
  induction d as [|[k' v'] d IH]; cbn.
  - now rewrite String.eqb_refl.
  - destruct (String.eqb k' k) eqn:E; cbn; rewrite E; [reflexivity | exact IH].
Qed.

Lemma getitem_setitem_other d k v k' :
  k <> k' ->
  Download.getitem (Download.setitem d k v) k' = Download.getitem d k'.
Proof.
  intros N. induction d as [|[k0 v0] d IH]; cbn.
  - apply String.eqb_neq in N. now rewrite N.
  - destruct (String.eqb k0 k) eqn:E; cbn.
    + apply String.eqb_eq in E. subst k0.
      apply String.eqb_neq in N. now rewrite N.
    + destruct (String.eqb k0 k'); [reflexivity | exact IH].
Qed.

Lemma setitem_fresh d k v :
  ~ In k (map fst d) -> Download.setitem d k v = (d ++ [(k, v)])%list.
Proof.
  induction d as [|[k' v'] d IH]; cbn; intros N; [reflexivity|].
  destruct (String.eqb k' k) eqn:E.
  - apply String.eqb_eq in E. subst k'. contradiction N. now left.
  - rewrite IH; [reflexivity|]. intros H. apply N. now right.
Qed.

Lemma setitem_keys d k v k' :
  In k' (map fst (Download.setitem d k v)) <-> k' = k \/ In k' (map fst d).
Proof.
  induction d as [|[k0 v0] d IH]; cbn.
  - intuition congruence.
  - destruct (String.eqb k0 k) eqn:E; cbn.
    + apply String.eqb_eq in E. subst k0. intuition congruence.
    + rewrite IH. intuition congruence.
Qed.

Lemma setitem_NoDup d k v :
  NoDup (map fst d) -> NoDup (map fst (Download.setitem d k v)).
Proof.
  induction d as [|[k0 v0] d IH]; cbn; intros H.
  - repeat constructor. intros [].
  - inversion H as [|x l Hn Hd]; subst.
    destruct (String.eqb k0 k) eqn:E; cbn.
    + now constructor.
    + apply String.eqb_neq in E. constructor; [|now apply IH].
      rewrite setitem_keys. intros [->|Hin]; [now apply E | contradiction].
Qed.

Lemma find_last {A} (f : A -> bool) (l : list A) (a : A) :
  find f (l ++ [a])%list
  = match find f l with
    | Some x => Some x
    | None => if f a then Some a else None
    end.
Proof.
  induction l as [|b l IH]; cbn; [reflexivity|].
  destruct (f b); [reflexivity | exact IH].
Qed.

Lemma fold_setitem_getitem cs d k :
  Download.getitem
    (fold_left (fun acc c => Download.setitem acc (Download.alpha_3 c)
                               (Download.name c)) cs d) k
  = match find (fun c => String.eqb (Download.alpha_3 c) k) (rev cs) with
    | Some c => Some (Download.name c)
    | None => Download.getitem d k
    end.
Proof.
  revert d. induction cs as [|c cs IH]; intros d; cbn; [reflexivity|].
  rewrite IH, find_last.
  destruct (find _ (rev cs)); [reflexivity|].
  destruct (String.eqb (Download.alpha_3 c) k) eqn:E.
  - apply String.eqb_eq in E. subst k. apply getitem_setitem_same.
  - apply String.eqb_neq in E. now apply getitem_setitem_other.
Qed.

Lemma fold_setitem_NoDup cs d :
  NoDup (map fst d) ->
  NoDup (map fst
    (fold_left (fun acc c => Download.setitem acc (Download.alpha_3 c)
                               (Download.name c)) cs d)).
Proof.
  revert d. induction cs as [|c cs IH]; intros d H; cbn; [exact H|].
  apply IH. now apply setitem_NoDup.
Qed.

(** X15. The dictionary of the countries has one entry per alpha-3 code,
    and the name under a code is that of the last country of
    [pycountry.countries] with the code. *)
Theorem countries_dict_lookup pycountry_countries key :
  NoDup (map fst (Download.generate_countries_dict pycountry_countries)) /\
  Download.getitem (Download.generate_countries_dict pycountry_countries) key
  = option_map Download.name
      (find (fun c => String.eqb (Download.alpha_3 c) key)
            (rev pycountry_countries)).
Proof.
  unfold Download.generate_countries_dict. split.
  - apply fold_setitem_NoDup. constructor.
  - rewrite fold_setitem_getitem.
    destruct (find _ (rev pycountry_countries)); reflexivity.
Qed.

Lemma fold_setitem_fresh cs d :
  NoDup (map fst d ++ map Download.alpha_3 cs)%list ->
  fold_left (fun acc c => Download.setitem acc (Download.alpha_3 c)
                            (Download.name c)) cs d
  = (d ++ map (fun c => (Download.alpha_3 c, Download.name c)) cs)%list.
Proof.
  revert d. induction cs as [|c cs IH]; intros d H; cbn.
  - now rewrite app_nil_r.
  - cbn in H. pose proof (NoDup_remove_2 _ _ _ H) as Hc.
    rewrite setitem_fresh by (intros Hin; apply Hc, in_or_app; now left).
    rewrite IH.
    + now rewrite <- app_assoc.
    + rewrite map_app. cbn. rewrite <- app_assoc. exact H.
Qed.

(** X16. When the alpha-3 codes of [pycountry.countries] are distinct, the
    dictionary lists the countries one by one in their order, so the loop
    visits every country once. *)
Theorem countries_dict_of_distinct_codes pycountry_countries :
  NoDup (map Download.alpha_3 pycountry_countries) ->
  Download.generate_countries_dict pycountry_countries
  = map (fun c => (Download.alpha_3 c, Download.name c)) pycountry_countries.
Proof.
  intros H. unfold Download.generate_countries_dict.
  now rewrite fold_setitem_fresh.
Qed.

Lemma map_nth_seq {A B} (f : A -> B) (l : list A) (d : A) :
  map (fun i => f (nth i l d)) (seq 0 (List.length l)) = map f l.
Proof.
  induction l as [|a l IH]; cbn; [reflexivity|].
  f_equal. rewrite <- seq_shift, map_map. exact IH.
Qed.

Lemma map_nth_firstn {A B} (f : A -> B) (l : list A) (d : A) (k : nat) :
  (k <= List.length l)%nat ->
  map (fun i => f (nth i l d)) (seq 0 k) = map f (firstn k l).
Proof.
  revert l. induction k as [|k IH]; intros [|a l] Hk; cbn in *; try lia;
    try reflexivity.
  f_equal. rewrite <- seq_shift, map_map. apply IH. lia.
Qed.

Lemma firstn_seq_le (a k n : nat) :
  (k <= n)%nat -> firstn k (seq a n) = seq a k.
Proof.
  revert a n. induction k as [|k IH]; intros a [|n] Hk; cbn; try lia;
    try reflexivity.
  f_equal. apply IH. lia.
Qed.

Lemma for_codes_app get mk op wr url codes files key value l1 l2 st :
  Download.for_codes get mk op wr url codes files key value (l1 ++ l2)%list st
  = match Download.for_codes get mk op wr url codes files key value l1 st with
    | (Download.Completed, st') =>
        Download.for_codes get mk op wr url codes files key value l2 st'
    | exited => exited
    end.
Proof.
  revert st. induction l1 as [|i l1 IH]; intros st; cbn; [reflexivity|].
  destruct (Download.download_one get mk op wr url codes files key value i st)
    as [[|] st']; [apply IH | reflexivity].
Qed.

Lemma setitem_length d k v :
  (List.length (Download.setitem d k v) <= S (List.length d))%nat.
Proof.
  induction d as [|[k' v'] d IH]; cbn; [lia|].
  destruct (String.eqb k' k); cbn; lia.
Qed.

(** The inner loop when every response is refused. *)
Lemma for_codes_all_refused get mk op wr url codes files key value indices st :
  (forall u, exists s c, get u = Some (s, c) /\ s <> 200) ->
  Forall (fun i => (i < List.length codes)%nat) indices ->
  Download.for_codes get mk op wr url codes files key value indices st
  = (Download.Completed,
     {| Download.disk := Download.disk st;
        Download.fetched :=
          (Download.fetched st
           ++ map (fun i => Download.archive url key (nth i codes "")) indices)%list;
        Download.log :=
          (Download.log st
           ++ map (fun i => ("$$Failed to download " ++ value ++ " "
                             ++ nth i codes "" ++ " data$$")%string)
                  indices)%list |}).
Proof.
  intros Hget Hind. revert st.
  induction Hind as [|i indices Hi _ IH]; intros st; cbn.
  - rewrite !app_nil_r. now destruct st.
  - unfold Download.download_one.
    destruct (nth_error codes i) as [code|] eqn:Hc;
      [|apply nth_error_None in Hc; lia].
    rewrite (nth_error_nth _ _ "" Hc).
    fold (Download.archive url key code).
    destruct (Hget (Download.archive url key code)) as (s & c & -> & Hs).
    replace (s =? 200)%Z with false by (symmetry; now apply Z.eqb_neq).
    rewrite IH. cbn [Download.disk Download.fetched Download.log].
    now rewrite <- !app_assoc.
Qed.

(** X17. When the server refuses every archive, the downloader completes
    without writing: the disk is as it was, whatever the list of file names
    holds and whatever the disk would refuse, every archive of every entry
    of the dictionary was asked for once, in order, and each has its line in
    the log. *)
Theorem download_all_refused get mk op wr url codes files items st :
  (forall u, exists s c, get u = Some (s, c) /\ s <> 200) ->
  Download.for_countries get mk op wr url codes files items st
  = (Download.Completed,
     {| Download.disk := Download.disk st;
        Download.fetched :=
          (Download.fetched st ++ Download.archives url codes items)%list;
        Download.log :=
          (Download.log st
           ++ flat_map
                (fun item =>
                   map (fun code => ("$$Failed to download " ++ snd item
                                     ++ " " ++ code ++ " data$$")%string)
                       codes)
                items)%list |}).
Proof.
  intros Hget. revert st.
  induction items as [|[key value] items IH]; intros st; cbn.
  - rewrite !app_nil_r. now destruct st.
  - rewrite (for_codes_all_refused _ _ _ _ _ _ _ _ _ _ _ Hget)
      by (apply Forall_forall; intros i Hi; now apply in_seq in Hi).
    rewrite IH. cbn [Download.disk Download.fetched Download.log].
    rewrite (map_nth_seq (Download.archive url key) codes "").
    rewrite (map_nth_seq
               (fun code => "$$Failed to download " ++ value ++ " "
                            ++ code ++ " data$$") codes "").
    unfold Download.archives. cbn [flat_map fst snd].
    now rewrite <- !app_assoc.
Qed.

(** One round of the inner loop when the archive is served: it has asked
    for the archive, and it completes or exits. *)
Lemma download_one_served get mk op wr url codes files key value i st code c :
  nth_error codes i = Some code ->
  get (Download.archive url key code) = Some (200, c) ->
  Download.fetched
    (snd (Download.download_one get mk op wr url codes files key value i st))
  = (Download.fetched st ++ [Download.archive url key code])%list.
Proof.
  intros Hc Hg. unfold Download.download_one. rewrite Hc.
  fold (Download.archive url key code). rewrite Hg. cbn [Z.eqb Pos.eqb].
  cbv zeta.
  destruct (Download.os_path_exists _ _); [|destruct (mk _ _)];
    cbn [Download.disk]; try reflexivity;
    (destruct (nth_error files i); [|reflexivity];
     destruct (op _ _); [reflexivity|];
     destruct (wr _ _ _); reflexivity).
Qed.

(** The inner loop when every archive is served: the archives asked for are
    those of the indices, up to the one at which the loop exits. *)
Lemma for_codes_served get mk op wr url codes files key value indices st :
  (forall u, exists c, get u = Some (200, c)) ->
  Forall (fun i => (i < List.length codes)%nat) indices ->
  let r := Download.for_codes get mk op wr url codes files key value indices st in
  (fst r = Download.Completed /\
   Download.fetched (snd r)
   = (Download.fetched st
      ++ map (fun i => Download.archive url key (nth i codes "")) indices)%list) \/
  (fst r = Download.Exit1 /\
   exists k, (1 <= k <= List.length indices)%nat /\
     Download.fetched (snd r)
     = (Download.fetched st
        ++ map (fun i => Download.archive url key (nth i codes ""))
               (firstn k indices))%list).
Proof.
  intros Hget Hind. revert st.
  induction Hind as [|i indices Hi _ IH]; intros st; cbn zeta.
  - left. cbn. now rewrite app_nil_r.
  - cbn [Download.for_codes].
    destruct (nth_error codes i) as [code|] eqn:Hc;
      [|apply nth_error_None in Hc; lia].
    destruct (Hget (Download.archive url key code)) as [c Hg].
    pose proof (download_one_served get mk op wr url codes files key value
                  i st code c Hc Hg) as Hone.
    rewrite <- (nth_error_nth _ _ "" Hc) in Hone.
    destruct (Download.download_one get mk op wr url codes files key value i st)
      as [[|] st1]; cbn [snd] in Hone.
    + destruct (IH st1) as [[Hfst Hfetched]|[Hfst (k & Hk & Hfetched)]].
      * left. split; [exact Hfst|].
        rewrite Hfetched, Hone, <- app_assoc. reflexivity.
      * right. split; [exact Hfst|]. exists (S k).
        split; [cbn [List.length]; lia|].
        rewrite Hfetched, Hone, <- app_assoc. reflexivity.
    + right. split; [reflexivity|]. exists 1%nat.
      split; [cbn [List.length]; lia|].
      cbn [snd firstn map]. exact Hone.
Qed.

(** The inner loop when the web answers, every index has a file name and
    the disk refuses nothing of what the loop asks of it. *)
Lemma for_codes_completes get mk op wr url codes files key value indices st :
  (forall u, get u <> None) ->
  (forall d, mk d ("countries/" ++ value) = false) ->
  (forall d file, In file files ->
     op d ("countries/" ++ value ++ "/" ++ file ++ ".zip") = false) ->
  (forall d file c, In file files ->
     wr d ("countries/" ++ value ++ "/" ++ file ++ ".zip") c = None) ->
  Forall (fun i => (i < List.length codes)%nat /\ (i < List.length files)%nat)
         indices ->
  exists st',
    Download.for_codes get mk op wr url codes files key value indices st
    = (Download.Completed, st') /\
    Download.fetched st'
    = (Download.fetched st
       ++ map (fun i => Download.archive url key (nth i codes "")) indices)%list /\
    (List.length (Download.contents (Download.disk st'))
     <= List.length (Download.contents (Download.disk st))
        + List.length indices)%nat.
Proof.
  intros Hget Hmk Hop Hwr Hind. revert st.
  induction Hind as [|i indices [Hi Hf] _ IH]; intros st;
    cbn [Download.for_codes map].
  - exists st. rewrite app_nil_r. cbn [List.length].
    split; [reflexivity|]. split; [reflexivity | lia].
  - unfold Download.download_one.
    destruct (nth_error codes i) as [code|] eqn:Hc;
      [|apply nth_error_None in Hc; lia].
    rewrite (nth_error_nth _ _ "" Hc).
    fold (Download.archive url key code).
    destruct (get (Download.archive url key code)) as [[s c]|] eqn:Hg;
      [|now contradiction (Hget (Download.archive url key code))].
    destruct (nth_error files i) as [file|] eqn:Hfile;
      [|apply nth_error_None in Hfile; lia].
    pose proof (nth_error_In _ _ Hfile) as Hin.
    destruct (s =? 200)%Z.
    + cbv zeta. cbn [Download.disk Download.fetched Download.log].
      rewrite Hmk.
      assert (Hstep : forall disk1 : Download.Disk,
        (if op disk1 ("countries/" ++ value ++ "/" ++ file ++ ".zip")
         then (Download.Exit1,
               {| Download.disk := disk1;
                  Download.fetched :=
                    (Download.fetched st ++ [Download.archive url key code])%list;
                  Download.log := Download.log st |})
         else
           match wr disk1 ("countries/" ++ value ++ "/" ++ file ++ ".zip") c with
           | Some written =>
               (Download.Exit1,
                {| Download.disk :=
                     Download.write disk1
                       ("countries/" ++ value ++ "/" ++ file ++ ".zip") written;
                   Download.fetched :=
                     (Download.fetched st ++ [Download.archive url key code])%list;
                   Download.log := Download.log st |})
           | None =>
               (Download.Completed,
                {| Download.disk :=
                     Download.write disk1
                       ("countries/" ++ value ++ "/" ++ file ++ ".zip") c;
                   Download.fetched :=
                     (Download.fetched st ++ [Download.archive url key code])%list;
                   Download.log :=
                     (Download.log st
                      ++ [("**" ++ value ++ " " ++ code
                           ++ " data downloaded successfully**")%string])%list |})
           end)
        = (Download.Completed,
           {| Download.disk :=
                Download.write disk1
                  ("countries/" ++ value ++ "/" ++ file ++ ".zip") c;
              Download.fetched :=
                (Download.fetched st ++ [Download.archive url key code])%list;
              Download.log :=
                (Download.log st
                 ++ [("**" ++ value ++ " " ++ code
                      ++ " data downloaded successfully**")%string])%list |})).
      { intros disk1. now rewrite (Hop disk1 file Hin), (Hwr disk1 file c Hin). }
      destruct (Download.os_path_exists (Download.disk st) ("countries/" ++ value));
        rewrite Hstep;
        match goal with
        | |- context [Download.for_codes _ _ _ _ _ _ _ _ _ _ ?s1] =>
            destruct (IH s1) as (st' & Hrun & Hfetched & Hlen)
        end;
        exists st'; (split; [exact Hrun|]);
        cbn [Download.disk Download.fetched Download.log] in Hfetched, Hlen;
        (split; [now rewrite Hfetched, <- app_assoc|]);
        (etransitivity; [exact Hlen|]);
        unfold Download.write; cbn [Download.contents];
        match goal with
        | |- context [Download.setitem ?d ?k ?v] =>
            pose proof (setitem_length d k v) as HS
        end;
        cbn [Download.os_makedirs Download.contents Download.disk List.length] in *;
        lia.
    + match goal with
      | |- context [Download.for_codes _ _ _ _ _ _ _ _ _ _ ?s1] =>
          destruct (IH s1) as (st' & Hrun & Hfetched & Hlen)
      end.
      exists st'. split; [exact Hrun|].
      cbn [Download.disk Download.fetched Download.log] in Hfetched, Hlen.
      split; [now rewrite Hfetched, <- app_assoc|].
      cbn [List.length]. lia.
Qed.

(** X18. When the web answers every request, there are at least as many
    file names as codes, and the disk refuses neither the directory of a
    country nor the opening or the writing of one of its files, the
    downloader completes, whatever the statuses are, and it has asked for
    every archive of every entry once, in order. *)
Theorem download_completes get mk op wr url codes files items st :
  (forall u, get u <> None) ->
  (List.length codes <= List.length files)%nat ->
  (forall d value, In value (map snd items) ->
     mk d ("countries/" ++ value) = false) ->
  (forall d value file, In value (map snd items) -> In file files ->
     op d ("countries/" ++ value ++ "/" ++ file ++ ".zip") = false) ->
  (forall d value file c, In value (map snd items) -> In file files ->
     wr d ("countries/" ++ value ++ "/" ++ file ++ ".zip") c = None) ->
  fst (Download.for_countries get mk op wr url codes files items st)
  = Download.Completed /\
  Download.fetched
    (snd (Download.for_countries get mk op wr url codes files items st))
  = (Download.fetched st ++ Download.archives url codes items)%list.
Proof.
  intros Hget Hlen Hmk Hop Hwr. revert st.
  induction items as [|[key value] items IH]; intros st;
    cbn [Download.for_countries].
  - split; [reflexivity|]. unfold Download.archives. cbn [flat_map].
    now rewrite app_nil_r.
  - destruct (for_codes_completes get mk op wr url codes files key value
                (seq 0 (List.length codes)) st Hget)
      as (st' & -> & Hfetched & _).
    { intros d. apply Hmk. now left. }
    { intros d file Hin. apply Hop; [now left | exact Hin]. }
    { intros d file c Hin. apply Hwr; [now left | exact Hin]. }
    { apply Forall_forall. intros i Hi. apply in_seq in Hi. lia. }
    destruct (IH (fun d v Hv => Hmk d v (or_intror Hv))
                 (fun d v f Hv Hf => Hop d v f (or_intror Hv) Hf)
                 (fun d v f c Hv Hf => Hwr d v f c (or_intror Hv) Hf) st')
      as [-> ->].
    split; [reflexivity|].
    rewrite Hfetched, (map_nth_seq (Download.archive url key) codes "").
    unfold Download.archives. cbn [flat_map fst]. now rewrite <- app_assoc.
Qed.

(** X19. When there are fewer file names than codes and the server serves
    every archive, the downloader ends with [sys.exit(1)] in the first
    country, whatever the disk does: it has asked for at least one archive
    and for at most one more than there are file names.  When the disk
    refuses nothing, it has asked for exactly one archive more than there
    are file names, has made the country's directory, and has written at
    most as many files as there are names. *)
Theorem download_exits_when_files_run_out get mk op wr url codes files
  key value rest st :
  (forall u, exists c, get u = Some (200, c)) ->
  (List.length files < List.length codes)%nat ->
  let r := Download.for_countries get mk op wr url codes files
             ((key, value) :: rest) st in
  fst r = Download.Exit1 /\
  (exists k, (1 <= k <= S (List.length files))%nat /\
     Download.fetched (snd r)
     = (Download.fetched st
        ++ map (Download.archive url key) (firstn k codes))%list) /\
  ((forall d, mk d ("countries/" ++ value) = false) ->
   (forall d file, In file files ->
      op d ("countries/" ++ value ++ "/" ++ file ++ ".zip") = false) ->
   (forall d file c, In file files ->
      wr d ("countries/" ++ value ++ "/" ++ file ++ ".zip") c = None) ->
   Download.fetched (snd r)
   = (Download.fetched st
      ++ map (Download.archive url key)
             (firstn (S (List.length files)) codes))%list /\
   Download.os_path_exists (Download.disk (snd r)) ("countries/" ++ value)
   = true /\
   (List.length (Download.contents (Download.disk (snd r)))
    <= List.length (Download.contents (Download.disk st))
       + List.length files)%nat).
Proof.
  intros Hget Hlen r. subst r. cbn [Download.for_countries].
  set (n := List.length files) in *.
  assert (Hseq : seq 0 (List.length codes)
                 = (seq 0 n ++ n :: seq (S n) (List.length codes - S n))%list).
  { replace (List.length codes) with (n + S (List.length codes - S n))%nat at 1
      by lia.
    rewrite seq_app. cbn. reflexivity. }
  rewrite Hseq, for_codes_app.
  destruct (nth_error codes n) as [code|] eqn:Hc;
    [|apply nth_error_None in Hc; lia].
  destruct (Hget (Download.archive url key code)) as [c Hg].
  assert (Hlast : forall st' : Download.State,
    fst (Download.download_one get mk op wr url codes files key value n st')
    = Download.Exit1).
  { intros st'. unfold Download.download_one. rewrite Hc.
    fold (Download.archive url key code). rewrite Hg. cbn [Z.eqb Pos.eqb].
    replace (nth_error files n) with (@None string)
      by (symmetry; apply nth_error_None; lia).
    cbv zeta.
    destruct (Download.os_path_exists _ _); [|destruct (mk _ _)];
      reflexivity. }
  assert (Hfirst : forall k, (k <= S n)%nat ->
    map (fun i => Download.archive url key (nth i codes "")) (seq 0 k)
    = map (Download.archive url key) (firstn k codes)).
  { intros k Hk. apply map_nth_firstn. lia. }
  split; [|split].
  - destruct (for_codes_served get mk op wr url codes files key value
                (seq 0 n) st Hget) as [[Hfst _]|[Hfst _]].
    { apply Forall_forall. intros i Hi. apply in_seq in Hi. lia. }
    + destruct (Download.for_codes get mk op wr url codes files key value
                  (seq 0 n) st) as [e st'].
      cbn [fst] in Hfst. subst e. cbn [Download.for_codes].
      specialize (Hlast st').
      destruct (Download.download_one get mk op wr url codes files key value
                  n st') as [[|] st2]; [discriminate | reflexivity].
    + destruct (Download.for_codes get mk op wr url codes files key value
                  (seq 0 n) st) as [e st'].
      cbn [fst] in Hfst. subst e. reflexivity.
  - destruct (for_codes_served get mk op wr url codes files key value
                (seq 0 n) st Hget) as [[Hfst Hf]|[Hfst (k & Hk & Hf)]].
    { apply Forall_forall. intros i Hi. apply in_seq in Hi. lia. }
    + destruct (Download.for_codes get mk op wr url codes files key value
                  (seq 0 n) st) as [e st'].
      cbn [fst snd] in Hfst, Hf. subst e. cbn [Download.for_codes].
      specialize (Hlast st').
      pose proof (download_one_served get mk op wr url codes files key value
                    n st' code c Hc Hg) as Hone.
      destruct (Download.download_one get mk op wr url codes files key value
                  n st') as [[|] st2]; [discriminate|].
      cbn [snd] in *. exists (S n). split; [lia|].
      rewrite Hone, Hf, <- app_assoc. f_equal.
      rewrite <- (Hfirst (S n)) by lia.
      rewrite seq_S, map_app. cbn [map Nat.add].
      now rewrite (nth_error_nth _ _ "" Hc).
    + destruct (Download.for_codes get mk op wr url codes files key value
                  (seq 0 n) st) as [e st'].
      cbn [fst snd] in Hfst, Hf. subst e. cbn [snd].
      rewrite length_seq in Hk. exists k. split; [lia|].
      rewrite Hf, firstn_seq_le by lia.
      now rewrite Hfirst by lia.
  - intros Hmk Hop Hwr.
    destruct (for_codes_completes get mk op wr url codes files key value
                (seq 0 n) st) as (st' & -> & Hfetched & Hcount);
      try assumption.
    { intros u. destruct (Hget u) as [c' ->]. discriminate. }
    { apply Forall_forall. intros i Hi. apply in_seq in Hi. lia. }
    rewrite length_seq in Hcount.
    cbn [Download.for_codes]. unfold Download.download_one. rewrite Hc.
    fold (Download.archive url key code). rewrite Hg.
    cbn [Z.eqb Pos.eqb].
    replace (nth_error files n) with (@None string)
      by (symmetry; apply nth_error_None; lia).
    cbv zeta. cbn [Download.disk Download.fetched Download.log].
    rewrite Hmk.
    destruct (Download.os_path_exists (Download.disk st') ("countries/" ++ value))
      eqn:E; cbn [fst snd Download.disk Download.fetched Download.log].
    + split; [|split; [exact E | lia]].
      rewrite Hfetched, <- app_assoc. f_equal.
      rewrite <- (Hfirst (S n)) by lia.
      rewrite seq_S, map_app. cbn [map Nat.add].
      now rewrite (nth_error_nth _ _ "" Hc).
    + split; [|split].
      * rewrite Hfetched, <- app_assoc. f_equal.
        rewrite <- (Hfirst (S n)) by lia.
        rewrite seq_S, map_app. cbn [map Nat.add].
        now rewrite (nth_error_nth _ _ "" Hc).
      * unfold Download.os_path_exists, Download.os_makedirs.
        cbn [Download.folders existsb]. now rewrite String.eqb_refl.
      * cbn [Download.os_makedirs Download.contents]. lia.
Qed.

(** X24. When the archive of the first code of the first country is served
    but the disk refuses the country's directory, or the opening of the
    file, the downloader ends with [sys.exit(1)] after that one request, and
    no file has been written. *)
Theorem download_exits_when_disk_refuses get mk op wr url codes files
  key value rest st code codes' file files' c :
  codes = code :: codes' ->
  files = file :: files' ->
  get (Download.archive url key code) = Some (200, c) ->
  (Download.os_path_exists (Download.disk st) ("countries/" ++ value) = false /\
   mk (Download.disk st) ("countries/" ++ value) = true) \/
  (forall d, op d ("countries/" ++ value ++ "/" ++ file ++ ".zip") = true) ->
  let r := Download.for_countries get mk op wr url codes files
             ((key, value) :: rest) st in
  fst r = Download.Exit1 /\
  Download.fetched (snd r)
  = (Download.fetched st ++ [Download.archive url key code])%list /\
  Download.contents (Download.disk (snd r)) = Download.contents (Download.disk st).
Proof.
  intros -> -> Hg Hdisk r. subst r.
  cbn [Download.for_countries List.length seq Download.for_codes].
  unfold Download.download_one. cbn [nth_error].
  fold (Download.archive url key code). rewrite Hg. cbn [Z.eqb Pos.eqb].
  cbv zeta. cbn [Download.disk Download.fetched Download.log].
  destruct Hdisk as [[He Hm]|Ho].
  - rewrite He, Hm. cbn [fst snd Download.disk Download.fetched].
    repeat split.
  - destruct (Download.os_path_exists (Download.disk st) ("countries/" ++ value));
      [|destruct (mk (Download.disk st) ("countries/" ++ value))];
      rewrite ?Ho; cbn [fst snd Download.disk Download.fetched];
      repeat split.
Qed.


(** ** Conversions that fail *)

Lemma shr_1_m (mrs : shr_record) :
  0 <= shr_m mrs -> shr_m (shr_1 mrs) = Z.div2 (shr_m mrs).
Proof.
  destruct mrs as [[|[p|p|]|p] r s]; cbn; intros H; try reflexivity; lia.
Qed.

Lemma iter_shr_1_m (k : positive) (mrs : shr_record) :
  0 <= shr_m mrs ->
  shr_m (Pos.iter shr_1 mrs k) = shr_m mrs / 2 ^ Zpos k.
Proof.
  intros H. induction k as [|k IH] using Pos.peano_ind.
  - cbn [Pos.iter]. rewrite shr_1_m by assumption.
    now rewrite Z.div2_div.
  - rewrite Pos.iter_succ, shr_1_m.
    + rewrite IH, Z.div2_div, Z.div_div by (try apply Z.pow_pos_nonneg; lia).
      rewrite Pos2Z.inj_succ, Z.pow_succ_r by lia.
      f_equal. ring.
    + rewrite IH. apply Z.div_pos; [assumption|].
      apply Z.pow_pos_nonneg; lia.
Qed.

Lemma nearest_overflows (n : Z) :
  2 ^ emax <= n -> nearest n = S754_infinity false.
Proof.
  intros Hn.
  assert (P1024 : 0 < 2 ^ emax) by (apply Z.pow_pos_nonneg; unfold emax; lia).
  destruct n as [|p|p]; try lia.
  pose proof (digits2_pos_bounds p) as [L U].
  set (d := Zpos (digits2_pos p)) in *.
  assert (Hd : emax < d).
  { destruct (Z.lt_ge_cases emax d) as [|G]; [assumption|exfalso].
    assert (2 ^ d <= 2 ^ emax) by (apply Z.pow_le_mono_r; lia). lia. }
  unfold nearest, binary_normalize, binary_round. fold d.
  replace (fexp prec emax (d + 0)) with (d - prec)
    by (unfold fexp, SpecFloat.emin, prec, emax in *; lia).
  unfold shl_align.
  destruct (d - prec - 0) as [|k|k] eqn:Ek;
    try (unfold prec, emax in *; lia).
  unfold binary_round_aux, shr_fexp. cbn [Zdigits2]. fold d.
  replace (fexp prec emax (d + 0) - 0) with (Zpos k)
    by (unfold fexp, SpecFloat.emin, prec, emax in *; lia).
  cbn [shr shr_record_of_loc]. rewrite iter_pos_iter.
  set (mrs := Pos.iter shr_1 _ k).
  assert (Hm : shr_m mrs = Zpos p / 2 ^ Zpos k).
  { subst mrs. rewrite iter_shr_1_m; cbn [shr_m]; [reflexivity | lia]. }
  assert (Pk : 0 < 2 ^ Zpos k) by (apply Z.pow_pos_nonneg; lia).
  assert (Hsplit : 2 ^ d = 2 ^ prec * 2 ^ Zpos k).
  { rewrite <- Z.pow_add_r by (unfold prec; lia). f_equal. lia. }
  assert (Hsplit' : 2 ^ (d - 1) = 2 ^ (prec - 1) * 2 ^ Zpos k).
  { rewrite <- Z.pow_add_r by (unfold prec; lia). f_equal. lia. }
  assert (Hlo : 2 ^ (prec - 1) <= shr_m mrs).
  { rewrite Hm. apply Z.div_le_lower_bound; [assumption|]. lia. }
  assert (Hhi : shr_m mrs < 2 ^ prec).
  { rewrite Hm. apply Z.div_lt_upper_bound; [assumption|]. lia. }
  set (m2 := round_nearest_even (shr_m mrs) (loc_of_shr_record mrs)).
  assert (Hm2 : shr_m mrs <= m2 <= shr_m mrs + 1).
  { subst m2. unfold round_nearest_even.
    destruct (loc_of_shr_record mrs) as [|[| |]];
      try destruct (Z.even (shr_m mrs)); lia. }
  change (2 ^ (prec - 1)) with 4503599627370496 in *.
  change (2 ^ prec) with 9007199254740992 in *.
  destruct m2 as [|q|q] eqn:Eq; try lia.
  cbn [Zdigits2].
  destruct (Z.eq_dec (Zpos q) 9007199254740992) as [E|NE].
  - injection E as ->. cbn [digits2_pos Pos.succ].
    replace (0 + Zpos k) with (Zpos k) by lia.
    replace (fexp prec emax (54 + Zpos k) - Zpos k) with 1
      by (unfold fexp, SpecFloat.emin, prec, emax in *; lia).
    cbn [shr shr_record_of_loc iter_pos shr_1 shr_m].
    replace (Zpos k + 1 <=? emax - prec) with false; [reflexivity|].
    symmetry. apply Z.leb_gt. unfold prec, emax in *; lia.
  - assert (Dq : Zpos (digits2_pos q) = prec).
    { apply digits2_pos_unique.
      change (2 ^ (prec - 1)) with 4503599627370496.
      change (2 ^ prec) with 9007199254740992. lia. }
    rewrite Dq. replace (0 + Zpos k) with (Zpos k) by lia.
    replace (fexp prec emax (prec + Zpos k) - Zpos k) with 0
      by (unfold fexp, SpecFloat.emin, prec, emax in *; lia).
    cbn [shr shr_record_of_loc shr_m].
    replace (Zpos k <=? emax - prec) with false; [reflexivity|].
    symmetry. apply Z.leb_gt. unfold prec, emax in *; lia.
Qed.

(** X20. A duration so long that [duration * 60000] is [2^1024] or more
    cannot be added to the float [now]: every granted [POST /add] raises
    [OverflowError] right after the count, before it asks for a token, and
    sends nothing more. *)
Theorem add_overflows_on_huge_duration cfg item env w A w1 :
  getRecords cfg (tableURL cfg) env w = (Ok A, w1) ->
  A < creatorLicences cfg ->
  2 ^ 1024 <= duration cfg * 60000 ->
  create_item cfg item env w = (Raise OverflowError, w1).
Proof.
  intros HR HA Hd.
  rewrite (create_item_granted _ item _ _ _ _ HR HA). cbv zeta.
  unfold float_of_int. now rewrite (nearest_overflows _ Hd).
Qed.

(** X21. The dates of the success response are formatted after the insert:
    when the host cannot format one of them, [POST /add] raises what the
    formatting raises instead of answering, and the lease is in the table
    all the same. *)
Theorem add_raises_after_insert_when_format_fails cfg item env w A w1 millis :
  getRecords cfg (tableURL cfg) env w = (Ok A, w1) ->
  A < creatorLicences cfg ->
  float_of_int (duration cfg * 60000) = Ok millis ->
  fault_at env (position w1) = Healthy ->
  fault_at env (S (position w1)) = Healthy ->
  let now := fmul (clock env) (nearest 1000) in
  local_strftime env (fdiv now (nearest 1000)) = None \/
  local_strftime env (fdiv (fadd now millis) (nearest 1000)) = None ->
  (local_strftime env (fdiv now (nearest 1000)) = None ->
   fst (create_item cfg item env w)
   = Raise (strftime_raises env (fdiv now (nearest 1000)))) /\
  (local_strftime env (fdiv now (nearest 1000)) <> None ->
   fst (create_item cfg item env w)
   = Raise (strftime_raises env (fdiv (fadd now millis) (nearest 1000)))) /\
  table (snd (create_item cfg item env w))
  = (table w1 ++ [new_lease item now (fadd now millis)])%list.
Proof.
  intros HR HA HM F0 F1 now Hfmt.
  rewrite (create_item_granted _ item _ _ _ _ HR HA). cbv zeta.
  rewrite HM, F0, F1. fold now.
  destruct (local_strftime env (fdiv now (nearest 1000))) as [dateNow|].
  - destruct Hfmt as [H|H]; [discriminate|]. rewrite H.
    split; [discriminate|]. split; reflexivity.
  - split; [reflexivity|]. split; [|reflexivity].
    intros N. now contradiction N.
Qed.

(** X23. A granted [POST /add] whose token exchange is served sends exactly
    one insert: a batch of the single record [{id, user_, start, end_}] with
    [rollbackOnFailure] set.  When the reply has status 200 the answer is
    the success response, the dates being formatted; when it has another
    status and a JSON body, the answer is the failure response. *)
Theorem insert_batch_and_answer cfg item env w A w1 millis :
  getRecords cfg (tableURL cfg) env w = (Ok A, w1) ->
  A < creatorLicences cfg ->
  float_of_int (duration cfg * 60000) = Ok millis ->
  fault_at env (position w1) = Healthy ->
  let now := fmul (clock env) (nearest 1000) in
  let lease := {| id := ID item; user_ := item_username item;
                  start := now; end_ := fadd now millis |} in
  let req := AddFeatures (tableURL cfg ++ "/addFeatures") (issued_token env)
               [lease] "" true false in
  let w2 := logged w1 [token_request cfg] in
  sent (snd (create_item cfg item env w)) = (sent w2 ++ [req])%list /\
  forall response, fst (remote env req w2) = Some response ->
    (status_code response <> 200 -> body response <> NotJson ->
     fst (create_item cfg item env w) = Ok (add_failed item)) /\
    (status_code response = 200 ->
     forall dateNow endNow,
       local_strftime env (fdiv now (nearest 1000)) = Some dateNow ->
       local_strftime env (fdiv (fadd now millis) (nearest 1000)) = Some endNow ->
       fst (create_item cfg item env w)
       = Ok (add_succeeded cfg item dateNow endNow A)).
Proof.
  intros HR HA HM F0 now lease req w2.
  pose proof (create_item_insert _ item _ _ _ _ _ HR HA HM F0) as H.
  cbv zeta in H. fold now in H.
  change (insert_request cfg (issued_token env)
            (new_lease item now (fadd now millis))) with req in H.
  fold w2 in H. rewrite H. split.
  - destruct (fst (remote env req w2)) as [response|]; [|reflexivity].
    destruct (status_code response =? 200)%Z; [|reflexivity].
    destruct (local_strftime env _); [destruct (local_strftime env _)|];
      reflexivity.
  - intros response ->. split.
    + intros Hs Hb. apply Z.eqb_neq in Hs. rewrite Hs. cbn [fst].
      destruct (body response); try reflexivity. now contradiction Hb.
    + intros Hs dateNow endNow -> ->. apply Z.eqb_eq in Hs. rewrite Hs.
      reflexivity.
Qed.

Lemma purge_all_expired now rows :
  Forall (fun r => expired now r = true) rows -> purge now rows = [].
Proof.
  unfold purge, delete_where.
  induction 1 as [|r rows E _ IH]; cbn; [reflexivity|].
  rewrite E. exact IH.
Qed.

(** X22. Leases are deleted lazily, by the next count: once every lease in
    the table has expired, the count is 0, the table is empty afterwards,
    and [POST /check] reports the whole capacity. *)
Theorem expired_leases_free_capacity cfg env w A w1 :
  getRecords cfg (tableURL cfg) env w = (Ok A, w1) ->
  Forall (fun r => expired (CURRENT_TIMESTAMP env) r = true) (table w) ->
  0 < creatorLicences cfg ->
  A = 0 /\ table w1 = [] /\
  check cfg env w = (Ok (licences_available (creatorLicences cfg)), w1).
Proof.
  intros HR Hex HC. pose proof HR as HR'.
  apply getRecords_Ok in HR' as (_ & _ & _ & HA & Hw1).
  rewrite (purge_all_expired _ _ Hex) in HA, Hw1. cbn in HA.
  split; [exact HA|]. split; [now rewrite Hw1|].
  rewrite (check_counted _ _ _ _ _ HR). subst A.
  replace (creatorLicences cfg >? 0) with true
    by (symmetry; rewrite Z.gtb_ltb; now apply Z.ltb_lt).
  now rewrite Z.sub_0_r.
Qed.

(** ** More scenarios, run *)

(** The delete is answered with status 500 and a JSON body: the process
    ends after two requests and the expired lease is still in the table.
    The delete is answered with status 502 and an HTML page: the count
    raises instead. *)
Lemma delete_refused_exits :
  snd (getRecords (portal 5 30) (tableURL (portal 5 30))
         (Faults.refused_at 1) (world one_expired))
  = logged (world one_expired)
      [token_request (portal 5 30);
       purge_request (tableURL (portal 5 30)) "tok"] /\
  getRecords (portal 5 30) (tableURL (portal 5 30))
    (Faults.error_page_at 1) (world one_expired)
  = (Raise JSONDecodeError,
     logged (world one_expired)
       [token_request (portal 5 30);
        purge_request (tableURL (portal 5 30)) "tok"]).
Proof.
  split.
  - apply (proj1 (proj2 (getRecords_exits_iff_delete_refused (portal 5 30)
                           (tableURL (portal 5 30)) (Faults.refused_at 1)
                           (world one_expired)))).
    vm_compute. reflexivity.
  - apply (proj2 (proj2 (getRecords_exits_iff_delete_refused (portal 5 30)
                           (tableURL (portal 5 30)) (Faults.error_page_at 1)
                           (world one_expired)))
             eq_refl 102%nat 0%nat).
    reflexivity.
Defined.

(** The token endpoint does not answer: [POST /add] raises, [POST /check]
    ends the process. *)
Lemma unreachable_portal :
  create_item (portal 2 30) u1 (Faults.unreachable_at 0) (world [])
  = (Raise ConnectionError, logged (world []) [token_request (portal 2 30)]) /\
  check (portal 2 30) (Faults.unreachable_at 0) (world [])
  = (SysExit, logged (world []) [token_request (portal 2 30)]).
Proof.
  apply (count_exception_raises_in_add_exits_in_check (portal 2 30) u1
           (Faults.unreachable_at 0) (world []) ConnectionError).
  vm_compute. reflexivity.
Defined.

(** The second token exchange is answered with status 500. *)
Lemma second_token_refused :
  create_item (portal 2 30) u1 (Faults.refused_at 3) (world [])
  = (SysExit,
     logged (counted (portal 2 30) (Faults.refused_at 3) (world []))
       [token_request (portal 2 30)]).
Proof.
  destruct (add_exits_when_token_fails (portal 2 30) u1 (Faults.refused_at 3)
              (world []) 0
              (counted (portal 2 30) (Faults.refused_at 3) (world []))
              (nearest (30 * 60000)))
    as (H & _).
  - vm_compute. reflexivity.
  - simpl. lia.
  - vm_compute. reflexivity.
  - vm_compute. discriminate.
  - exact H.
Defined.

(** Capacity 1: after two requests for a lease the table holds one row. *)
Lemma two_requests_one_licence :
  Z.of_nat (List.length
    (table (added (portal 1 30) u3 later
              (added (portal 1 30) u1 healthy (world []))))) <= 1.
Proof.
  apply (capacity_never_exceeded (portal 1 30) (world [])).
  - apply served_add. apply served_add. apply served_none.
  - simpl. lia.
Defined.

(** A portal without creator licences. *)
Lemma portal_without_licences :
  create_item (portal 0 30) u1 healthy (world [])
  = (Ok (no_licences u1), counted (portal 0 30) healthy (world [])) /\
  check (portal 0 30) healthy (world [])
  = (Ok licences_exhausted, counted (portal 0 30) healthy (world [])).
Proof.
  apply (no_capacity_denies_all (portal 0 30) u1 healthy (world []) 0).
  - simpl. lia.
  - vm_compute. reflexivity.
Defined.

(** A check that reports four licences, then a request a second later. *)
Lemma add_after_check_granted :
  fst (create_item (portal 5 30) u1 later
         (counted (portal 5 30) healthy (world one_expired)))
  <> Ok (no_licences u1).
Proof.
  destruct (add_after_successful_check (portal 5 30) u1 healthy later
              (world one_expired)
              (licences_available 4)
              (counted (portal 5 30) healthy (world one_expired))
              1
              (counted (portal 5 30) later
                 (counted (portal 5 30) healthy (world one_expired))))
    as (_ & H).
  - vm_compute. reflexivity.
  - reflexivity.
  - vm_compute. reflexivity.
  - exact H.
Defined.

(** Capacity 3: the first lease reports two remaining licences, and the
    check a second later reports two as well. *)
Lemma check_after_add_reports_two :
  check (portal 3 30) later (added (portal 3 30) u1 healthy (world []))
  = (Ok (licences_available 2),
     counted (portal 3 30) later (added (portal 3 30) u1 healthy (world []))).
Proof.
  destruct (check_after_successful_add (portal 3 30) u1 healthy later
              (world []) 0
              (counted (portal 3 30) healthy (world []))
              (answer (portal 3 30) u1 healthy (world []))
              (added (portal 3 30) u1 healthy (world []))
              1
              (counted (portal 3 30) later
                 (added (portal 3 30) u1 healthy (world []))))
    as (_ & H).
  - vm_compute. reflexivity.
  - vm_compute. reflexivity.
  - vm_compute. reflexivity.
  - vm_compute. reflexivity.
  - apply H. simpl. lia.
Defined.

(** The request of [u1] is answered alike whether the running lease is
    somebody else's or [u1]'s own. *)
Lemma second_lease_for_same_id :
  fst (create_item (portal 2 30) u1 healthy (Cases.running "x"))
  = fst (create_item (portal 2 30) u1 healthy (Cases.running "u1")).
Proof.
  apply (add_ignores_existing_ids (portal 2 30) u1 healthy
           (Cases.running "x") (Cases.running "u1")).
  - reflexivity.
  - vm_compute. reflexivity.
Defined.

(** The lease of 30 minutes asked for at 1700000000.250003 is active. *)
Lemma fresh_lease_is_active_in_2023 :
  active (fmul (clock fractional) (nearest 1000))
    (new_lease u1 (fmul (clock fractional) (nearest 1000))
       (fadd (fmul (clock fractional) (nearest 1000)) (nearest (30 * 60000))))
  = true.
Proof.
  destruct (fresh_lease_is_active (portal 2 30) u1 fractional
              6963200001024013 (-12))
    as (H & _).
  - vm_compute. reflexivity.
  - lia.
  - lia.
  - simpl. lia.
  - simpl. lia.
  - exact H.
Defined.

(** Viewers, then creators with 25 members, then anything. *)
Lemma creators_found_after_viewers :
  Startup.creator_licences (fun _ => None)
    [Cases.viewers; Cases.creators; []]
  = Some 25.
Proof.
  destruct (creator_licences_scan (fun _ => None) [Cases.viewers])
    as (_ & H & _).
  - constructor; [|constructor].
    exists (Startup.JStr "viewerUT"). split; reflexivity.
  - exact (H Cases.creators [[]] eq_refl).
Defined.

(** The first call generates the schema, the second returns it. *)
Lemma schema_generated_once :
  OpenApi.custom_openapi (list string) Cases.no_entries Cases.titled
    (snd (OpenApi.custom_openapi (list string) Cases.no_entries Cases.titled
            Cases.fresh_app))
  = OpenApi.custom_openapi (list string) Cases.no_entries Cases.titled
      Cases.fresh_app.
Proof.
  destruct (custom_openapi_caches (list string) Cases.no_entries Cases.titled
              Cases.fresh_app)
    as (H & _).
  - reflexivity.
  - exact H.
Defined.

(** Italy and France. *)
Lemma dict_of_italy_and_france :
  Download.generate_countries_dict [Cases.italy; Cases.france]
  = [("ITA", "Italy"); ("FRA", "France")].
Proof.
  apply (countries_dict_of_distinct_codes [Cases.italy; Cases.france]).
  repeat constructor; cbn; intuition discriminate.
Defined.

(** No archive is found: two requests per country, an empty disk. *)
Lemma nothing_found :
  Download.disk
    (snd (Download.for_countries Cases.not_found Cases.read_only
            Cases.read_only Cases.writable Cases.base ["adm"; "wat"] []
            [("ITA", "Italy"); ("FRA", "France")] Cases.empty_disk))
  = Download.disk Cases.empty_disk /\
  List.length
    (Download.fetched
       (snd (Download.for_countries Cases.not_found Cases.read_only
               Cases.read_only Cases.writable Cases.base ["adm"; "wat"] []
               [("ITA", "Italy"); ("FRA", "France")] Cases.empty_disk)))
  = 4%nat.
Proof.
  rewrite (download_all_refused Cases.not_found Cases.read_only
             Cases.read_only Cases.writable Cases.base ["adm"; "wat"] []
             [("ITA", "Italy"); ("FRA", "France")] Cases.empty_disk).
  - split; reflexivity.
  - intros u. exists 404, "". split; [reflexivity | discriminate].
Defined.

(** Every archive is found, each code has its file name, and the disk
    refuses nothing. *)
Lemma everything_found :
  fst (Download.for_countries Cases.found Cases.willing Cases.willing
         Cases.writable Cases.base ["adm"; "wat"]
         ["borders"; "water"] [("ITA", "Italy"); ("FRA", "France")]
         Cases.empty_disk)
  = Download.Completed.
Proof.
  apply (download_completes Cases.found Cases.willing Cases.willing
           Cases.writable Cases.base ["adm"; "wat"]
           ["borders"; "water"] [("ITA", "Italy"); ("FRA", "France")]
           Cases.empty_disk).
  - discriminate.
  - simpl. lia.
  - reflexivity.
  - reflexivity.
  - reflexivity.
Defined.

(** Two codes and one file name: the run ends in Italy, at the second
    archive. *)
Lemma second_file_name_missing :
  fst (Download.for_countries Cases.found Cases.willing Cases.willing
         Cases.writable Cases.base ["adm"; "wat"]
         ["borders"] [("ITA", "Italy"); ("FRA", "France")] Cases.empty_disk)
  = Download.Exit1 /\
  Download.fetched
    (snd (Download.for_countries Cases.found Cases.willing Cases.willing
            Cases.writable Cases.base ["adm"; "wat"]
            ["borders"] [("ITA", "Italy"); ("FRA", "France")]
            Cases.empty_disk))
  = ["https://data.example/adm/ITA_adm.zip";
     "https://data.example/wat/ITA_wat.zip"].
Proof.
  destruct (download_exits_when_files_run_out Cases.found Cases.willing
              Cases.willing Cases.writable Cases.base
              ["adm"; "wat"] ["borders"] "ITA" "Italy" [("FRA", "France")]
              Cases.empty_disk)
    as (H1 & _ & H3).
  - intros u. exists "PK". reflexivity.
  - simpl. lia.
  - split; [exact H1|].
    destruct H3 as (H3 & _); [reflexivity | reflexivity | reflexivity |].
    exact H3.
Defined.

(** Every archive is found, but no file can be opened: the run ends in
    Italy, after the first archive. *)
Lemma first_file_refused :
  fst (Download.for_countries Cases.found Cases.willing Cases.read_only
         Cases.writable Cases.base ["adm"; "wat"]
         ["borders"; "water"] [("ITA", "Italy"); ("FRA", "France")]
         Cases.empty_disk)
  = Download.Exit1 /\
  Download.fetched
    (snd (Download.for_countries Cases.found Cases.willing Cases.read_only
            Cases.writable Cases.base ["adm"; "wat"]
            ["borders"; "water"] [("ITA", "Italy"); ("FRA", "France")]
            Cases.empty_disk))
  = ["https://data.example/adm/ITA_adm.zip"].
Proof.
  destruct (download_exits_when_disk_refuses Cases.found Cases.willing
              Cases.read_only Cases.writable Cases.base
              ["adm"; "wat"] ["borders"; "water"] "ITA" "Italy"
              [("FRA", "France")] Cases.empty_disk
              "adm" ["wat"] "borders" ["water"] "PK")
    as (H1 & H2 & _).
  - reflexivity.
  - reflexivity.
  - reflexivity.
  - right. reflexivity.
  - split; [exact H1 | exact H2].
Defined.

(** A duration of [2^1024] minutes. *)
Lemma duration_beyond_floats :
  create_item (portal 2 (2 ^ 1024)) u1 healthy (world [])
  = (Raise OverflowError, counted (portal 2 (2 ^ 1024)) healthy (world [])).
Proof.
  apply (add_overflows_on_huge_duration (portal 2 (2 ^ 1024)) u1 healthy
           (world []) 0).
  - vm_compute. reflexivity.
  - simpl. lia.
  - change (duration (portal 2 (2 ^ 1024))) with (2 ^ 1024). lia.
Defined.

(** The lease is inserted, the dates cannot be formatted. *)
Lemma inserted_but_unformatted :
  fst (create_item (portal 2 30) u1 Faults.unformattable (world []))
  = Raise OverflowError /\
  List.length
    (table (snd (create_item (portal 2 30) u1 Faults.unformattable (world []))))
  = 1%nat.
Proof.
  destruct (add_raises_after_insert_when_format_fails (portal 2 30) u1
              Faults.unformattable (world []) 0
              (counted (portal 2 30) Faults.unformattable (world []))
              (nearest (30 * 60000)))
    as (H1 & _ & H2).
  - vm_compute. reflexivity.
  - simpl. lia.
  - vm_compute. reflexivity.
  - reflexivity.
  - reflexivity.
  - left. reflexivity.
  - split; [rewrite (H1 eq_refl); reflexivity|]. rewrite H2. reflexivity.
Defined.

(** Capacity 2 and one lease that ended a second ago. *)
Lemma expired_lease_frees_its_licence :
  check (portal 2 30) healthy (world [lease "old" (ms0 - 1000)])
  = (Ok (licences_available 2),
     counted (portal 2 30) healthy (world [lease "old" (ms0 - 1000)])).
Proof.
  destruct (expired_leases_free_capacity (portal 2 30) healthy
              (world [lease "old" (ms0 - 1000)]) 0
              (counted (portal 2 30) healthy
                 (world [lease "old" (ms0 - 1000)])))
    as (_ & _ & H).
  - vm_compute. reflexivity.
  - constructor; [vm_compute; reflexivity | constructor].
  - simpl. lia.
  - exact H.
Defined.

(** The granted request sends its one-record batch and succeeds. *)
Lemma first_lease_batch :
  sent (added (portal 2 30) u1 healthy (world []))
  = [token_request (portal 2 30);
     purge_request (tableURL (portal 2 30)) "tok";
     count_request (tableURL (portal 2 30)) "tok";
     token_request (portal 2 30);
     AddFeatures (tableURL (portal 2 30) ++ "/addFeatures") "tok"
       [{| id := "u1"; user_ := Some "ann";
           start := nearest ms0; end_ := nearest (ms0 + 1800000) |}]
       "" true false].
Proof.
  destruct (insert_batch_and_answer (portal 2 30) u1 healthy (world []) 0
              (counted (portal 2 30) healthy (world []))
              (nearest (30 * 60000)))
    as (H & _).
  - vm_compute. reflexivity.
  - reflexivity.
  - vm_compute. reflexivity.
  - reflexivity.
  - unfold added. rewrite H. vm_compute. reflexivity.
Defined.
